(** * The Matrix transport of Raiden: retry queues, rooms and the inbound pipeline

    A shallow embedding of [raiden/network/transport/matrix/transport.py].
    Python [bytes] (addresses, signatures) and [str] values are both modelled
    by [string], a sequence of 8-bit characters, so that Python's
    lexicographic comparison of [bytes] is [String.compare].  Dictionaries
    are [gmap]s, lists are lists, and every function that mutates [self]
    takes the state and returns the new one, also when it raises. *)

From Stdlib Require Import ZArith Ascii String.
From stdpp Require Import gmap strings list fin_maps.

Local Open Scope string_scope.
Local Open Scope list_scope.
Local Open Scope Z_scope.

(** ** Messages *)

(** The class hierarchy of [raiden.messages], as far as the transport
    inspects it with [isinstance].  [Delivered], [Ping] and [Pong] are signed
    but not retrieable; [Processed] and every other
    [SignedRetrieableMessage] carry a [message_identifier]; the remaining
    signed messages (fee and capacity updates, monitoring requests) are
    neither. *)
Inductive Message : Type :=
| Delivered (delivered_message_identifier : Z) (signature : string)
| Ping (nonce : Z) (current_protocol_version : Z) (signature : string)
| Pong (nonce : Z) (signature : string)
| Processed (message_identifier : Z) (signature : string)
| SignedRetrieable (cmdid : Z) (message_identifier : Z)
                   (payload : string) (signature : string)
| SignedOther (cmdid : Z) (payload : string) (signature : string).

#[global] Instance Message_eq_dec : EqDecision Message.
Proof. solve_decision. Defined.

(** [isinstance(message, (Delivered, Ping, Pong))] *)
Definition is_transport_internal (m : Message) : bool :=
  match m with
  | Delivered _ _ | Ping _ _ _ | Pong _ _ => true
  | _ => false
  end.

(** [message.message_identifier], defined on [RetrieableMessage] only. *)
Definition message_identifier_of (m : Message) : option Z :=
  match m with
  | Processed i _ | SignedRetrieable _ i _ _ => Some i
  | _ => None
  end.

(** [isinstance(message, RetrieableMessage)] *)
Definition is_retrieable (m : Message) : bool :=
  bool_decide (is_Some (message_identifier_of m)).

(** [isinstance(message, (Processed, SignedRetrieableMessage))] *)
Definition is_signed_retrieable (m : Message) : bool :=
  match m with
  | Processed _ _ | SignedRetrieable _ _ _ _ => true
  | _ => false
  end.

Definition EMPTY_SIGNATURE : string := "".

(** ** Queue identifiers *)

Record CanonicalIdentifier : Type := {
  chain_identifier : Z;
  token_network_address : string;
  channel_identifier : Z
}.

Record QueueIdentifier : Type := {
  recipient : string;
  canonical_identifier : CanonicalIdentifier
}.

#[global] Instance CanonicalIdentifier_eq_dec : EqDecision CanonicalIdentifier.
Proof. solve_decision. Defined.

#[global] Instance QueueIdentifier_eq_dec : EqDecision QueueIdentifier.
Proof. solve_decision. Defined.

#[global] Instance CanonicalIdentifier_countable : Countable CanonicalIdentifier.
Proof.
  refine (inj_countable'
            (fun c => (chain_identifier c, token_network_address c,
                       channel_identifier c))
            (fun t => {| chain_identifier := t.1.1;
                         token_network_address := t.1.2;
                         channel_identifier := t.2 |}) _).
  by intros [].
Defined.

#[global] Instance QueueIdentifier_countable : Countable QueueIdentifier.
Proof.
  refine (inj_countable'
            (fun q => (recipient q, canonical_identifier q))
            (fun t => {| recipient := t.1; canonical_identifier := t.2 |}) _).
  by intros [].
Defined.

(** ** Rooms, users and presence as the Matrix client exposes them *)

Record User : Type := {
  user_id : string;
  displayname : option string
}.

Record Room : Type := {
  room_id : string;
  aliases : list string;
  canonical_alias : option string;
  invite_only : bool;
  joined_members : list User
}.

Inductive AddressReachability : Type := REACHABLE | UNREACHABLE | UNKNOWN.

#[global] Instance AddressReachability_eq_dec : EqDecision AddressReachability.
Proof. solve_decision. Defined.

Inductive UserPresence : Type :=
  ONLINE | UNAVAILABLE | OFFLINE | PRESENCE_UNKNOWN.

(** [USER_PRESENCE_REACHABLE_STATES = {ONLINE, UNAVAILABLE}] *)
Definition presence_reachable (p : UserPresence) : bool :=
  match p with
  | ONLINE | UNAVAILABLE => true
  | _ => false
  end.

(** ** Configuration and external collaborators *)

Record MatrixTransportConfig : Type := {
  broadcast_rooms : list string;
  retries_before_backoff : Z;
  retry_interval : Z
}.

(** What the transport consumes from code outside this file: message
    serialization, the signer, signature recovery, batching and two
    constants.  The generator returned by [timeout_exponential_backoff] never
    ends, so it is given by its k-th element. *)
Class Collaborators : Type := {
  serialize : Message → string;
  timeout_exponential_backoff : Z → Z → Z → nat → Z;
  make_message_batches : list string → list string;
  sign : Message → Message;
  sender : Message → option string;
  validate_userid_signature : User → option string;
  validate_and_parse_message : string → string → list Message;
  CANONICAL_IDENTIFIER_UNORDERED_QUEUE : CanonicalIdentifier;
  JOIN_RETRIES : nat
}.

(** A RetryQueue is considered idle after this many iterations without a
    message. *)
Definition RETRY_QUEUE_IDLE_AFTER : nat := 10.

(** ** Outcomes of calls that may raise *)

Inductive Exn : Type :=
| ValueError
| AssertionError
| RuntimeError
| UnboundLocalError
| KeyError
| MatrixRequestError (code : Z)
| TransportError.

Inductive Outcome (A : Type) : Type :=
| Returned (a : A)
| Raised (e : Exn).
Arguments Returned {A} a.
Arguments Raised {A} e.

(** Python's [list.remove]: drops the first element equal to [x] and raises
    [ValueError] (here [None]) when there is none. *)
Fixpoint list_remove `{EqDecision A} (x : A) (l : list A) : option (list A) :=
  match l with
  | [] => None
  | y :: l' => if decide (x = y) then Some l' else (y ::.) <$> list_remove x l'
  end.

(** Python's [needle in haystack] on strings. *)
Fixpoint str_contains (needle haystack : string) : bool :=
  String.prefix needle haystack ||
  match haystack with
  | EmptyString => false
  | String _ rest => str_contains needle rest
  end.

(** ** The expiration generator of a queued message

    [_RetryQueue._expiration_generator] is a Python generator; its state
    between two [next] calls is the number of timeouts already fetched and
    the deadline [_next] (absent until the generator is first resumed). *)
Record ExpirationGenerator : Type := {
  timeout_generator : nat → Z;
  fetched : nat;
  _next : option Z
}.

#[global] Instance ExpirationGenerator_inhabited : Inhabited ExpirationGenerator :=
  populate {| timeout_generator := fun _ => 0; fetched := 0%nat; _next := None |}.

Definition _expiration_generator (timeouts : nat → Z) : ExpirationGenerator :=
  {| timeout_generator := timeouts; fetched := 0%nat; _next := None |}.

(** [next(generator)].  [now] is the clock, [reads] the number of times it
    has been read so far; the result is the yielded value, the generator
    afterwards and the new number of reads. *)
Definition expiration_next (now : nat → Z) (reads : nat) (g : ExpirationGenerator)
  : bool * ExpirationGenerator * nat :=
  let fetch (reads' : nat) :=
    (* _next = now() + timeout; yield True *)
    (true,
     {| timeout_generator := timeout_generator g;
        fetched := S (fetched g);
        _next := Some (now reads' + timeout_generator g (fetched g)) |},
     S reads') in
  match _next g with
  | None => fetch reads
  | Some deadline =>
      (* while now() < _next: yield False *)
      if now reads <? deadline then (false, g, S reads) else fetch (S reads)
  end.

(** ** The retry queue *)

Record _MessageData : Type := {
  queue_identifier : QueueIdentifier;
  message : Message;
  text : string;
  (* reference to the generator object; generators compare by identity *)
  expiration_generator : nat
}.

#[global] Instance _MessageData_eq_dec : EqDecision _MessageData.
Proof. solve_decision. Defined.

Record _RetryQueue : Type := {
  receiver : string;
  _message_queue : list _MessageData;
  _notify_event : bool;
  _idle_since : nat;
  (* [greenlet.ready()]: the loop of this queue has exited *)
  greenlet_ready : bool;
  (* the generator objects the entries refer to, and the next free reference *)
  generators : gmap nat ExpirationGenerator;
  allocated : nat
}.

Definition new_RetryQueue (receiver : string) : _RetryQueue :=
  {| receiver := receiver; _message_queue := []; _notify_event := false;
     _idle_since := 0%nat; greenlet_ready := false; generators := ∅;
     allocated := 0%nat |}.

Definition set_message_queue (l : list _MessageData) (q : _RetryQueue) : _RetryQueue :=
  {| receiver := receiver q; _message_queue := l;
     _notify_event := _notify_event q; _idle_since := _idle_since q;
     greenlet_ready := greenlet_ready q; generators := generators q;
     allocated := allocated q |}.

Definition set_notify_event (b : bool) (q : _RetryQueue) : _RetryQueue :=
  {| receiver := receiver q; _message_queue := _message_queue q;
     _notify_event := b; _idle_since := _idle_since q;
     greenlet_ready := greenlet_ready q; generators := generators q;
     allocated := allocated q |}.

Definition set_idle_since (n : nat) (q : _RetryQueue) : _RetryQueue :=
  {| receiver := receiver q; _message_queue := _message_queue q;
     _notify_event := _notify_event q; _idle_since := n;
     greenlet_ready := greenlet_ready q; generators := generators q;
     allocated := allocated q |}.

Definition set_greenlet_ready (b : bool) (q : _RetryQueue) : _RetryQueue :=
  {| receiver := receiver q; _message_queue := _message_queue q;
     _notify_event := _notify_event q; _idle_since := _idle_since q;
     greenlet_ready := b; generators := generators q;
     allocated := allocated q |}.

Definition set_generator (ref : nat) (g : ExpirationGenerator) (q : _RetryQueue)
  : _RetryQueue :=
  {| receiver := receiver q; _message_queue := _message_queue q;
     _notify_event := _notify_event q; _idle_since := _idle_since q;
     greenlet_ready := greenlet_ready q;
     generators := <[ref := g]> (generators q);
     allocated := allocated q |}.

(** What a retry queue reads from its transport, and what the transport
    answers, during one iteration of the loop. *)
Record TransportView : Type := {
  transport_greenlet : bool;
  stop_event_ready : bool;
  _prioritize_broadcast_messages : bool;
  get_address_reachability : string → AddressReachability;
  (* the Raiden queues: per queue identifier, the message identifiers of the
     pending send events *)
  _queueids_to_queues : gmap QueueIdentifier (list Z);
  now : nat → Z;
  (* the exception raised by the k-th call of [_send_raw], if any *)
  _send_raw_raises : nat → option Exn
}.

Inductive Effect : Type :=
| BroadcastQueueJoin
| SendRaw (receiver_address : string) (data : string).

#[global] Instance Effect_eq_dec : EqDecision Effect.
Proof. solve_decision. Defined.

Section RetryQueue.
Context `{Collaborators}.

Definition notify (q : _RetryQueue) : _RetryQueue := set_notify_event true q.

Definition already_queued (q : _RetryQueue) (qid : QueueIdentifier) (m : Message)
  : bool :=
  existsb (fun data => bool_decide (qid = queue_identifier data)
                       && bool_decide (m = message data))
          (_message_queue q).

(** [enqueue]: the assertion, the duplicate check, then append and notify.
    A duplicate returns before [notify]. *)
Definition enqueue (cfg : MatrixTransportConfig) (q : _RetryQueue)
           (qid : QueueIdentifier) (m : Message) : _RetryQueue * Outcome unit :=
  if negb (bool_decide (recipient qid = receiver q)) then (q, Raised AssertionError)
  else if already_queued q qid m then (q, Returned ())
  else
    let timeouts :=
      timeout_exponential_backoff (retries_before_backoff cfg)
                                  (retry_interval cfg)
                                  (retry_interval cfg * 10) in
    let ref := allocated q in
    let data := {| queue_identifier := qid; message := m;
                   text := serialize m; expiration_generator := ref |} in
    (notify
       {| receiver := receiver q;
          _message_queue := _message_queue q ++ [data];
          _notify_event := _notify_event q;
          _idle_since := _idle_since q;
          greenlet_ready := greenlet_ready q;
          generators := <[ref := _expiration_generator timeouts]> (generators q);
          allocated := S ref |},
     Returned ()).

Definition unordered_queue (receiver : string) : QueueIdentifier :=
  {| recipient := receiver;
     canonical_identifier := CANONICAL_IDENTIFIER_UNORDERED_QUEUE |}.

Definition enqueue_unordered (cfg : MatrixTransportConfig) (q : _RetryQueue)
           (m : Message) : _RetryQueue * Outcome unit :=
  enqueue cfg q (unordered_queue (receiver q)) m.

(** The inner function of [_check_and_send]. *)
Definition message_is_in_queue (view : TransportView) (data : _MessageData) : bool :=
  match _queueids_to_queues view !! queue_identifier data with
  | None => false
  | Some queue =>
      existsb (fun send_event =>
                 is_retrieable (message data)
                 && bool_decide (Some send_event = message_identifier_of (message data)))
              queue
  end.

(** State of the [for] loop of [_check_and_send]. *)
Record Collecting : Type := {
  queue : _RetryQueue;
  message_texts : list string;
  clock_reads : nat
}.

Definition remove_entry (data : _MessageData) (texts : list string)
           (st : Collecting) : Collecting * option Exn :=
  match list_remove data (_message_queue (queue st)) with
  | Some l =>
      ({| queue := set_message_queue l (queue st); message_texts := texts;
          clock_reads := clock_reads st |}, None)
  | None =>
      ({| queue := queue st; message_texts := texts;
          clock_reads := clock_reads st |}, Some ValueError)
  end.

(** The state in which the loop starts. *)
Definition collecting (q : _RetryQueue) : Collecting :=
  {| queue := q; message_texts := []; clock_reads := 0%nat |}.

(** One pass of the loop body. *)
Definition collect_step (view : TransportView) (data : _MessageData)
           (st : Collecting) : Collecting * option Exn :=
  if is_transport_internal (message data) then
    remove_entry data (message_texts st ++ [text data]) st
  else if negb (message_is_in_queue view data) then
    remove_entry data (message_texts st) st
  else
    let '(ready, g, reads) :=
      expiration_next (now view) (clock_reads st)
                      (generators (queue st) !!! expiration_generator data) in
    ({| queue := set_generator (expiration_generator data) g (queue st);
        message_texts :=
          if ready then message_texts st ++ [text data] else message_texts st;
        clock_reads := reads |}, None).

(** [for message_data in self._message_queue[:]] *)
Fixpoint collect (view : TransportView) (snapshot : list _MessageData)
         (st : Collecting) : Collecting * option Exn :=
  match snapshot with
  | [] => (st, None)
  | data :: rest =>
      match collect_step view data st with
      | (st', None) => collect view rest st'
      | (st', Some e) => (st', Some e)
      end
  end.

(** The entries the loop does not schedule for removal: messages other
    than [Delivered], [Ping] and [Pong] that the Raiden queues still
    list. *)
Definition kept (view : TransportView) (data : _MessageData) : bool :=
  negb (is_transport_internal (message data)) && message_is_in_queue view data.

(** [for message_batch in ...: self.transport._send_raw(...)], [k] calls
    of [_send_raw] having been made before. *)
Fixpoint send_batches (view : TransportView) (receiver : string)
         (batches : list string) (k : nat) : list Effect * option Exn :=
  match batches with
  | [] => ([], None)
  | batch :: rest =>
      match _send_raw_raises view k with
      | Some e => ([SendRaw receiver batch], Some e)
      | None =>
          let '(sent, err) := send_batches view receiver rest (S k) in
          (SendRaw receiver batch :: sent, err)
      end
  end.

(** [_check_and_send]; the lock is held by the caller. *)
Definition _check_and_send (view : TransportView) (q : _RetryQueue)
  : _RetryQueue * list Effect * option Exn :=
  if negb (transport_greenlet view) then (q, [], None)
  else if stop_event_ready view then (q, [], None)
  else
    let joined :=
      if _prioritize_broadcast_messages view then [BroadcastQueueJoin] else [] in
    if negb (bool_decide (get_address_reachability view (receiver q) = REACHABLE))
    then (q, joined, None)
    else
      let '(st, err) :=
        collect view (_message_queue q) (collecting q) in
      match err with
      | Some e => (queue st, joined, Some e)
      | None =>
          let batches :=
            match message_texts st with
            | [] => []
            | _ => make_message_batches (message_texts st)
            end in
          let '(sent, err') := send_batches view (receiver q) batches 0%nat in
          (queue st, joined ++ sent, err')
      end.

Definition is_idle (q : _RetryQueue) : bool :=
  bool_decide (RETRY_QUEUE_IDLE_AFTER ≤ _idle_since q)%nat.

(** How one pass through the [while] loop of [_run] ends. *)
Inductive LoopStatus : Type :=
| Waiting            (* reached [_notify_event.wait] *)
| ExitStopped        (* the loop condition found the stop event set *)
| ExitIdle           (* [return] under [if self.is_idle] *)
| Crashed (e : Exn). (* an exception left the loop *)

Definition _run_iteration (view : TransportView) (q : _RetryQueue)
  : _RetryQueue * list Effect * LoopStatus :=
  if stop_event_ready view then (set_greenlet_ready true q, [], ExitStopped)
  else
    let q := set_notify_event false q in
    let '(q, effects, err) :=
      match _message_queue q with
      | _ :: _ => _check_and_send view (set_idle_since 0 q)
      | [] => (set_idle_since (S (_idle_since q)) q, [], None)
      end in
    match err with
    | Some e => (set_greenlet_ready true q, effects, Crashed e)
    | None =>
        if is_idle q then (set_greenlet_ready true q, effects, ExitIdle)
        else (q, effects, Waiting)
    end.

(** One round of the life of the loop: what other greenlets enqueue while
    it waits, then the view the next iteration has of the transport. *)
Record Round : Type := {
  arrivals : list (QueueIdentifier * Message);
  transport_view : TransportView
}.

Definition enqueue_all (cfg : MatrixTransportConfig) (q : _RetryQueue)
           (l : list (QueueIdentifier * Message)) : _RetryQueue :=
  foldl (fun q a => (enqueue cfg q a.1 a.2).1) q l.

Fixpoint _run_loop (cfg : MatrixTransportConfig) (rounds : list Round)
         (q : _RetryQueue) : _RetryQueue * list Effect * LoopStatus :=
  match rounds with
  | [] => (q, [], Waiting)
  | r :: rest =>
      let '(q', effects, status) :=
        _run_iteration (transport_view r) (enqueue_all cfg q (arrivals r)) in
      match status with
      | Waiting =>
          let '(q'', effects', status') := _run_loop cfg rest q' in
          (q'', effects ++ effects', status')
      | _ => (q', effects, status)
      end
  end.

(** [_run]: the assertion on [_raiden_service], then the loop. *)
Definition _run (cfg : MatrixTransportConfig) (raiden_service_set : bool)
           (rounds : list Round) (q : _RetryQueue)
  : _RetryQueue * list Effect * LoopStatus :=
  if negb raiden_service_set
  then (set_greenlet_ready true q, [], Crashed AssertionError)
  else _run_loop cfg rounds q.

End RetryQueue.

(** ** The transport *)

(** A room event as the sync delivers it, a dictionary: [message["type"]],
    [message["content"]["msgtype"]], [message["sender"]] and
    [message["content"]["body"]].  A key that the dictionary does not hold is
    [None]; indexing it raises [KeyError]. *)
Record MatrixMessage : Type := {
  event_type : option string;
  msgtype : option string;
  event_sender : option string;
  body : option string
}.

Record MatrixTransport : Type := {
  _config : MatrixTransportConfig;
  _stop_event : bool;
  (* [self._raiden_service.address], when the service is set *)
  _raiden_service : option string;
  _user_id : string;
  (* [self._client.rooms] and [self._client.get_user] *)
  client_rooms : gmap string Room;
  client_get_user : string → User;
  (* a [defaultdict(list)], read with [!!!] *)
  _address_to_room_ids : gmap string (list string);
  _address_to_retrier : gmap string _RetryQueue;
  (* [self._address_mgr] *)
  known_addresses : gset string;
  userids_for_address : gmap string (gset string);
  userid_presence : gmap string UserPresence
}.

Definition set_address_to_room_ids (m : gmap string (list string))
           (t : MatrixTransport) : MatrixTransport :=
  {| _config := _config t; _stop_event := _stop_event t;
     _raiden_service := _raiden_service t; _user_id := _user_id t;
     client_rooms := client_rooms t; client_get_user := client_get_user t;
     _address_to_room_ids := m;
     _address_to_retrier := _address_to_retrier t;
     known_addresses := known_addresses t;
     userids_for_address := userids_for_address t;
     userid_presence := userid_presence t |}.

Definition set_address_to_retrier (m : gmap string _RetryQueue)
           (t : MatrixTransport) : MatrixTransport :=
  {| _config := _config t; _stop_event := _stop_event t;
     _raiden_service := _raiden_service t; _user_id := _user_id t;
     client_rooms := client_rooms t; client_get_user := client_get_user t;
     _address_to_room_ids := _address_to_room_ids t;
     _address_to_retrier := m;
     known_addresses := known_addresses t;
     userids_for_address := userids_for_address t;
     userid_presence := userid_presence t |}.

Definition set_client_rooms (m : gmap string Room) (t : MatrixTransport)
  : MatrixTransport :=
  {| _config := _config t; _stop_event := _stop_event t;
     _raiden_service := _raiden_service t; _user_id := _user_id t;
     client_rooms := m; client_get_user := client_get_user t;
     _address_to_room_ids := _address_to_room_ids t;
     _address_to_retrier := _address_to_retrier t;
     known_addresses := known_addresses t;
     userids_for_address := userids_for_address t;
     userid_presence := userid_presence t |}.

Definition set_userids_for_address (m : gmap string (gset string))
           (t : MatrixTransport) : MatrixTransport :=
  {| _config := _config t; _stop_event := _stop_event t;
     _raiden_service := _raiden_service t; _user_id := _user_id t;
     client_rooms := client_rooms t; client_get_user := client_get_user t;
     _address_to_room_ids := _address_to_room_ids t;
     _address_to_retrier := _address_to_retrier t;
     known_addresses := known_addresses t;
     userids_for_address := m;
     userid_presence := userid_presence t |}.

Definition set_joined_members (members : list User) (r : Room) : Room :=
  {| room_id := room_id r; aliases := aliases r;
     canonical_alias := canonical_alias r; invite_only := invite_only r;
     joined_members := members |}.

(** The calls the transport makes on the room service, the signer, its retry
    queues and the application, in the order they are made. *)
Inductive Call : Type :=
| GetUser (user : string)
| WarmUsers (users : list User)
| Sign (m : Message)
| StartRetrier (receiver_address : string)
| Enqueue (receiver_address : string) (qid : QueueIdentifier) (m : Message)
| OnMessages (messages : list Message)
| SearchUserDirectory (term : string)
| CreateRoom (invitees : list string)
| GetJoinedMembers (room : string)
| StopEventWait (attempt : nat)
| LeaveRoom (room : string).

(** What the room service answers while a room is being created. *)
Record RoomService : Type := {
  search_user_directory : string → list User;
  create_room : list string → Room;
  (* the answer to the k-th [get_joined_members(force_resync=True)] *)
  get_joined_members : nat → Outcome (list User);
  (* whether the stop event is set during the k-th wait *)
  stop_event_wait : nat → bool;
  leave_raises : bool
}.

(** [eth_utils.is_binary_address]: bytes of length 20. *)
Definition is_binary_address (a : string) : bool :=
  bool_decide (String.length a = 20%nat).

(** Truth value of an [Optional[Address]]. *)
Definition address_truthy (a : option string) : bool :=
  match a with
  | Some a => negb (bool_decide (a = ""))
  | None => false
  end.

(** Modelled from the spec: [my_place_or_yours] of
    [raiden.network.transport.matrix.utils] is not part of the sources at
    hand.  "The peer with the lexicographically smaller address is the
    creator (function [my_place_or_yours])." *)
Definition my_place_or_yours (our_address partner_address : string) : string :=
  if String.ltb partner_address our_address then partner_address else our_address.

Section Transport.
Context `{Collaborators}.

(** [_is_broadcast_room].  [room_aliases] is built and then not read: the
    generator expression ranges over [room.aliases]. *)
Definition _is_broadcast_room (t : MatrixTransport) (room : Room) : bool :=
  let room_aliases :=
    match canonical_alias room with
    | Some a => if bool_decide (a = "") then aliases room else aliases room ++ [a]
    | None => aliases room
    end in
  existsb (fun suffix =>
             existsb (fun room_alias => str_contains suffix room_alias)
                     (aliases room))
          (broadcast_rooms (_config t)).

Definition room_is_private (t : MatrixTransport) (room : string) : bool :=
  match client_rooms t !! room with
  | Some r => invite_only r
  | None => false
  end.

Definition _get_room_ids_for_address (t : MatrixTransport) (address : string)
  : list string :=
  filter (fun room => room_is_private t room = true)
         (_address_to_room_ids t !!! address).

Definition _set_room_id_for_address (t : MatrixTransport) (address room : string)
  : MatrixTransport * Outcome unit :=
  if negb (bool_decide (room = "") || bool_decide (is_Some (client_rooms t !! room)))
  then (t, Raised AssertionError)
  else
    let room_ids := _get_room_ids_for_address t address in
    (* push to front *)
    let room_ids := room :: filter (fun r => r ≠ room) room_ids in
    (set_address_to_room_ids (<[address := room_ids]> (_address_to_room_ids t)) t,
     Returned ()).

Definition is_address_known (t : MatrixTransport) (address : string) : bool :=
  bool_decide (address ∈ known_addresses t).

Definition get_userid_presence (t : MatrixTransport) (user : string) : UserPresence :=
  default PRESENCE_UNKNOWN (userid_presence t !! user).

(** The rooms [_get_room_for_address] chooses from: the known private
    rooms of the address that are not broadcast rooms.  Every id returned
    by [_get_room_ids_for_address] is a key of [client_rooms]. *)
Definition room_candidates (t : MatrixTransport) (address : string) : list Room :=
  filter (fun room => _is_broadcast_room t room = false)
         (omap (fun room => client_rooms t !! room)
               (_get_room_ids_for_address t address)).

Definition has_online_peers (t : MatrixTransport) (address : string) (room : Room)
  : bool :=
  existsb (fun user =>
             bool_decide (user_id user ∈ userids_for_address t !!! address)
             && presence_reachable (get_userid_presence t (user_id user)))
          (joined_members room).

Definition _get_room_for_address (t : MatrixTransport) (address : string)
           (require_online_peer : bool) : Outcome (option Room) :=
  if negb (negb (bool_decide (address = "")) && is_address_known t address)
  then Raised AssertionError
  else
    let candidates := room_candidates t address in
    if negb require_online_peer then Returned (head candidates)
    else
      Returned (head (filter (fun room => has_online_peers t address room = true)
                             candidates)).

(** How the loop that waits for the partner to join ends. *)
Inductive Polled : Type :=
| PollDone (members : option (list User))
| PollStopped
| PollRaised (e : Exn).

(** [for _ in range(JOIN_RETRIES)], [attempt] passes before this one.
    [members] is unbound ([None]) until a call of [get_joined_members]
    returns; a request error with a code of 500 or more is swallowed and
    leaves it as it was. *)
Fixpoint poll_members (service : RoomService) (room : string)
         (partner_user_ids : list string) (retries attempt : nat)
         (members : option (list User)) : list Call * Polled :=
  match retries with
  | O => ([], PollDone members)
  | S retries' =>
      let fetched :=
        match get_joined_members service attempt with
        | Returned ms => Returned (Some ms)
        | Raised (MatrixRequestError code) =>
            if code <? 500 then Raised (MatrixRequestError code)
            else Returned members
        | Raised e => Raised e
        end in
      match fetched with
      | Raised e => ([GetJoinedMembers room], PollRaised e)
      | Returned None => ([GetJoinedMembers room], PollRaised UnboundLocalError)
      | Returned (Some ms) =>
          if existsb (fun member => bool_decide (user_id member ∈ partner_user_ids)) ms
          then ([GetJoinedMembers room], PollDone (Some ms))
          else if stop_event_wait service attempt
          then ([GetJoinedMembers room; StopEventWait attempt], PollStopped)
          else
            let '(calls, r) :=
              poll_members service room partner_user_ids retries' (S attempt)
                           (Some ms) in
            (GetJoinedMembers room :: StopEventWait attempt :: calls, r)
      end
  end.

Definition _maybe_create_room_for_address (t : MatrixTransport)
           (service : RoomService) (address : string)
  : MatrixTransport * list Call * Outcome (option Room) :=
  if _stop_event t then (t, [], Returned None)
  else
    match _get_room_for_address t address false with
    | Raised e => (t, [], Raised e)
    | Returned (Some _) => (t, [], Returned None)
    | Returned None =>
        match _raiden_service t with
        | None => (t, [], Raised AssertionError)
        | Some our_address =>
            if negb (bool_decide (our_address = my_place_or_yours our_address address))
            then (t, [], Returned None)
            else
              let candidates := search_user_directory service address in
              let partner_users :=
                filter (fun user => validate_userid_signature user = Some address)
                       candidates in
              let partner_user_ids := user_id <$> partner_users in
              let searched := [SearchUserDirectory address; WarmUsers candidates] in
              match partner_users with
              | [] => (t, searched, Returned None)
              | _ :: _ =>
                  let room := create_room service partner_user_ids in
                  let t := set_client_rooms (<[room_id room := room]> (client_rooms t)) t in
                  let created := searched ++ [CreateRoom partner_user_ids] in
                  let '(polls, polled) :=
                    poll_members service (room_id room) partner_user_ids
                                 JOIN_RETRIES 0 None in
                  match polled with
                  | PollRaised e => (t, created ++ polls, Raised e)
                  | PollStopped => (t, created ++ polls, Returned None)
                  | PollDone None => (t, created ++ polls, Raised UnboundLocalError)
                  | PollDone (Some members) =>
                      let room := set_joined_members members room in
                      let t := set_client_rooms (<[room_id room := room]> (client_rooms t)) t in
                      let valid_user_ids := partner_user_ids ++ [_user_id t] in
                      if existsb (fun member =>
                                    negb (bool_decide (user_id member ∈ valid_user_ids)))
                                 members
                      then
                        (t, created ++ polls ++ [LeaveRoom (room_id room)],
                         if leave_raises service then Raised TransportError
                         else Returned None)
                      else
                        let t :=
                          set_userids_for_address
                            (<[address :=
                                 userids_for_address t !!! address
                                 ∪ list_to_set partner_user_ids]>
                               (userids_for_address t)) t in
                        match _set_room_id_for_address t address (room_id room) with
                        | (t, Raised e) => (t, created ++ polls, Raised e)
                        | (t, Returned _) => (t, created ++ polls, Returned (Some room))
                        end
                  end
              end
        end
    end.

(** [_get_retrier]: a queue whose loop has exited is replaced by a new,
    started one. *)
Definition _get_retrier (t : MatrixTransport) (receiver : string)
  : MatrixTransport * list Call * _RetryQueue :=
  let create :=
    let retrier := new_RetryQueue receiver in
    (set_address_to_retrier (<[receiver := retrier]> (_address_to_retrier t)) t,
     [StartRetrier receiver], retrier) in
  match _address_to_retrier t !! receiver with
  | None => create
  | Some retrier => if greenlet_ready retrier then create else (t, [], retrier)
  end.

(** [retrier.enqueue(...)] on the queue object the map holds for
    [receiver]. *)
Definition enqueue_on (t : MatrixTransport) (receiver : string)
           (retrier : _RetryQueue) (qid : QueueIdentifier) (m : Message)
  : MatrixTransport * list Call * Outcome unit :=
  let '(retrier, r) := enqueue (_config t) retrier qid m in
  (set_address_to_retrier (<[receiver := retrier]> (_address_to_retrier t)) t,
   [Enqueue receiver qid m], r).

Definition _send_with_retry (t : MatrixTransport) (qid : QueueIdentifier)
           (m : Message) : MatrixTransport * list Call * Outcome unit :=
  let '(t, started, retrier) := _get_retrier t (recipient qid) in
  let '(t, calls, r) := enqueue_on t (recipient qid) retrier qid m in
  (t, started ++ calls, r).

(** [send_async].  [to_checksum_address] and the serializers only format the
    error and log messages. *)
Definition send_async (t : MatrixTransport) (qid : QueueIdentifier) (m : Message)
  : MatrixTransport * list Call * Outcome unit :=
  let receiver_address := recipient qid in
  if negb (is_binary_address receiver_address) then (t, [], Raised ValueError)
  else if is_transport_internal m then (t, [], Raised ValueError)
  else _send_with_retry t qid m.

Definition _handle_text (t : MatrixTransport) (room : Room) (msg : MatrixMessage)
  : list Call * Outcome (list Message) :=
  match event_type msg with
  | None => ([], Raised KeyError)
  | Some type =>
      (* [and] looks at the content only for an "m.room.message" *)
      if negb (bool_decide (type = "m.room.message")) then ([], Returned [])
      else
        match msgtype msg with
        | None => ([], Raised KeyError)
        | Some content_type =>
            if negb (bool_decide (content_type = "m.text")) then ([], Returned [])
            else
              match event_sender msg with
              | None => ([], Raised KeyError)
              | Some sender_id =>
                  if bool_decide (sender_id = _user_id t) then ([], Returned [])
                  else
                    let user := client_get_user t sender_id in
                    let calls := [GetUser sender_id; WarmUsers [user]] in
                    let peer_address := validate_userid_signature user in
                    if negb (address_truthy peer_address) then (calls, Returned [])
                    else if _is_broadcast_room t room then (calls, Raised RuntimeError)
                    else
                      let peer_address := default "" peer_address in
                      if negb (is_address_known t peer_address)
                      then (calls, Returned [])
                      else if negb (bool_decide
                                      (room_id room
                                       ∈ _get_room_ids_for_address t peer_address))
                      then (calls, Returned [])
                      else
                        match body msg with
                        | None => (calls, Raised KeyError)
                        | Some text =>
                            (calls,
                             Returned (validate_and_parse_message text peer_address))
                        end
              end
        end
  end.

(** The first loop of [_handle_sync_messages]: the messages of one room,
    then of all rooms. *)
Fixpoint handle_room_messages (t : MatrixTransport) (room : Room)
         (room_messages : list MatrixMessage)
  : list Call * Outcome (list Message) :=
  match room_messages with
  | [] => ([], Returned [])
  | msg :: rest =>
      match _handle_text t room msg with
      | (calls, Raised e) => (calls, Raised e)
      | (calls, Returned ms) =>
          match handle_room_messages t room rest with
          | (calls', Raised e) => (calls ++ calls', Raised e)
          | (calls', Returned ms') => (calls ++ calls', Returned (ms ++ ms'))
          end
      end
  end.

Fixpoint handle_rooms (t : MatrixTransport)
         (sync_messages : list (Room * list MatrixMessage))
  : list Call * Outcome (list Message) :=
  match sync_messages with
  | [] => ([], Returned [])
  | (room, room_messages) :: rest =>
      let here :=
        if negb (_is_broadcast_room t room)
        then handle_room_messages t room room_messages
        else ([], Returned []) in
      match here with
      | (calls, Raised e) => (calls, Raised e)
      | (calls, Returned ms) =>
          match handle_rooms t rest with
          | (calls', Raised e) => (calls ++ calls', Raised e)
          | (calls', Returned ms') => (calls ++ calls', Returned (ms ++ ms'))
          end
      end
  end.

(** The condition of the second loop. *)
Definition needs_delivered (m : Message) : bool :=
  is_signed_retrieable m && address_truthy (sender m).

(** The [Delivered] built and signed for [m]. *)
Definition delivered_for (m : Message) : Message :=
  sign (Delivered (default 0 (message_identifier_of m)) EMPTY_SIGNATURE).

(** The second loop: [for message in all_messages]. *)
Fixpoint acknowledge (t : MatrixTransport) (all_messages : list Message)
  : MatrixTransport * list Call * Outcome unit :=
  match all_messages with
  | [] => (t, [], Returned ())
  | m :: rest =>
      if needs_delivered m then
        let peer := default "" (sender m) in
        let delivered_message :=
          Delivered (default 0 (message_identifier_of m)) EMPTY_SIGNATURE in
        let signed := sign delivered_message in
        let '(t, started, retrier) := _get_retrier t peer in
        let '(t, calls, r) :=
          enqueue_on t peer retrier (unordered_queue (receiver retrier)) signed in
        match r with
        | Raised e => (t, Sign delivered_message :: started ++ calls, Raised e)
        | Returned _ =>
            let '(t, calls', r') := acknowledge t rest in
            (t, Sign delivered_message :: started ++ calls ++ calls', r')
        end
      else acknowledge t rest
  end.

Definition _handle_sync_messages (t : MatrixTransport)
           (sync_messages : list (Room * list MatrixMessage))
  : MatrixTransport * list Call * Outcome bool :=
  if _stop_event t then (t, [], Returned false)
  else
    match _raiden_service t with
    | None => (t, [], Raised AssertionError)
    | Some _ =>
        match handle_rooms t sync_messages with
        | (calls, Raised e) => (t, calls, Raised e)
        | (calls, Returned all_messages) =>
            match acknowledge t all_messages with
            | (t, acks, Raised e) => (t, calls ++ acks, Raised e)
            | (t, acks, Returned _) =>
                (t, calls ++ acks ++ [OnMessages all_messages],
                 Returned (negb (bool_decide (all_messages = []))))
            end
        end
    end.

(** *** Notions used to state the properties of the transport *)

(** The address map starts empty (a fresh [defaultdict(list)]) and
    [_set_room_id_for_address] is the only method that writes it; every
    other step leaves it as it is. *)
Inductive room_ids_written : MatrixTransport → Prop :=
| room_ids_initial t :
    _address_to_room_ids t = ∅ → room_ids_written t
| room_ids_set t address room :
    room_ids_written t →
    room_ids_written (_set_room_id_for_address t address room).1
| room_ids_other t t' :
    room_ids_written t →
    _address_to_room_ids t' = _address_to_room_ids t →
    room_ids_written t'.

(** [_get_retrier] stores every queue under its receiver. *)
Definition retriers_keyed (t : MatrixTransport) : Prop :=
  ∀ address retrier,
    _address_to_retrier t !! address = Some retrier → receiver retrier = address.

(** The queue of [address] is alive and buffers [m] in the unordered queue. *)
Definition buffered_unordered (t : MatrixTransport) (address : string) (m : Message)
  : Prop :=
  ∃ retrier, _address_to_retrier t !! address = Some retrier
             ∧ greenlet_ready retrier = false
             ∧ ∃ data, data ∈ _message_queue retrier
                       ∧ canonical_identifier (queue_identifier data)
                         = CANONICAL_IDENTIFIER_UNORDERED_QUEUE
                       ∧ message data = m.

(** Projections of the trace: the enqueue calls (queue, canonical
    identifier, message), the messages handed to the signer, and the calls
    of the application handler. *)
Definition enqueued (c : Call) : option (string * CanonicalIdentifier * Message) :=
  match c with
  | Enqueue address qid m => Some (address, canonical_identifier qid, m)
  | _ => None
  end.

Definition signed (c : Call) : option Message :=
  match c with
  | Sign m => Some m
  | _ => None
  end.

Definition handled (c : Call) : option (list Message) :=
  match c with
  | OnMessages l => Some l
  | _ => None
  end.

(** The enqueue call that acknowledges [m]. *)
Definition acknowledgement (m : Message) : string * CanonicalIdentifier * Message :=
  (default "" (sender m), CANONICAL_IDENTIFIER_UNORDERED_QUEUE, delivered_for m).

Definition creates_room (calls : list Call) : Prop :=
  ∃ invitees, CreateRoom invitees ∈ calls.

End Transport.

(** ** Further notions on the retry queue *)

(** [n] successive calls of [next] on a generator. *)
Fixpoint expiration_run (now : nat → Z) (reads : nat) (g : ExpirationGenerator)
         (n : nat) : list bool * ExpirationGenerator * nat :=
  match n with
  | O => ([], g, reads)
  | S n' =>
      let '(ready, g', reads') := expiration_next now reads g in
      let '(rest, g'', reads'') := expiration_run now reads' g' n' in
      (ready :: rest, g'', reads'')
  end.

(** The pair that [enqueue] compares to find a duplicate. *)
Definition entry_key (data : _MessageData) : QueueIdentifier * Message :=
  (queue_identifier data, message data).

(** The shape of a buffer that only [enqueue] has added to: no two entries
    with the same queue identifier and message, no two entries sharing a
    generator object, and every generator reference already allocated. *)
Definition buffer_well_formed (q : _RetryQueue) : Prop :=
  NoDup (entry_key <$> _message_queue q)
  ∧ NoDup (expiration_generator <$> _message_queue q)
  ∧ ∀ data, data ∈ _message_queue q → (expiration_generator data < allocated q)%nat.

(** A view in which [_check_and_send] returns at one of its guards although
    the transport is not stopping: the transport has not been started, or
    the receiver is not reachable. *)
Definition holds_back (view : TransportView) (receiver : string) : Prop :=
  stop_event_ready view = false
  ∧ (transport_greenlet view = false
     ∨ get_address_reachability view receiver ≠ REACHABLE).


(** ** Further parts of the transport *)

(** The calls the transport makes on room objects. *)
Inductive RoomCall : Type :=
| SendText (room : string) (data : string).

(** [_send_raw].  [send_text_raises] is the exception that
    [room.send_text] raises, if any. *)
Definition _send_raw (t : MatrixTransport) (send_text_raises : option Exn)
           (receiver_address data : string) : list RoomCall * Outcome unit :=
  match _get_room_for_address t receiver_address true with
  | Raised e => ([], Raised e)
  | Returned (Some room) =>
      ([SendText (room_id room) data],
       match send_text_raises with
       | Some e => Raised e
       | None => Returned ()
       end)
  | Returned None => ([], Returned ())
  end.

(** Projections of the trace of a room creation: the invitees of the
    rooms created, and the rooms whose members were fetched. *)
Definition created (c : Call) : option (list string) :=
  match c with
  | CreateRoom invitees => Some invitees
  | _ => None
  end.

Definition members_fetched (c : Call) : option string :=
  match c with
  | GetJoinedMembers room => Some room
  | _ => None
  end.

(** An event that holds every key that [_handle_text] may index. *)
Definition event_complete (event : MatrixMessage) : Prop :=
  is_Some (event_type event) ∧ is_Some (msgtype event)
  ∧ is_Some (event_sender event) ∧ is_Some (body event).

(** What [_is_broadcast_room] establishes when it answers [False]: no
    alias in [room.aliases] contains a configured broadcast suffix.  The
    canonical alias of the room is not examined. *)
Definition no_broadcast_alias (t : MatrixTransport) (room : Room) : Prop :=
  ∀ suffix room_alias,
    suffix ∈ broadcast_rooms (_config t) → room_alias ∈ aliases room →
    ¬ ∃ before after, room_alias = (before ++ suffix ++ after)%string.

(** Every buffered entry is addressed to the receiver of the queue, as the
    assertion at the head of [enqueue] demands of what is added. *)
Definition entries_addressed (q : _RetryQueue) : Prop :=
  ∀ data, data ∈ _message_queue q →
          recipient (queue_identifier data) = receiver q.

Section Inbound.
Context `{Collaborators}.

(** Where an accepted message comes from: a text event of a peer that is
    not this node, whose display name validates to a whitelisted address,
    received in a room that is listed for that address. *)
Definition accepted_from (t : MatrixTransport) (room : Room) (event : MatrixMessage)
           (m : Message) : Prop :=
  ∃ peer sender_id text,
    event_type event = Some "m.room.message" ∧ msgtype event = Some "m.text"
    ∧ event_sender event = Some sender_id ∧ body event = Some text
    ∧ sender_id ≠ _user_id t
    ∧ validate_userid_signature (client_get_user t sender_id) = Some peer
    ∧ peer ≠ "" ∧ peer ∈ known_addresses t
    ∧ room_id room ∈ _get_room_ids_for_address t peer
    ∧ m ∈ validate_and_parse_message text peer.

End Inbound.

(** ** Fixtures: one concrete choice of the collaborators and small states *)

Definition newline : string := String "010"%char EmptyString.

Definition fixture_sign (m : Message) : Message :=
  match m with
  | Delivered i _ => Delivered i "signed"
  | Ping n v _ => Ping n v "signed"
  | Pong n _ => Pong n "signed"
  | Processed i _ => Processed i "signed"
  | SignedRetrieable c i p _ => SignedRetrieable c i p "signed"
  | SignedOther c p _ => SignedOther c p "signed"
  end.

Definition fixture_signature (m : Message) : string :=
  match m with
  | Delivered _ s | Ping _ _ s | Pong _ s | Processed _ s
  | SignedRetrieable _ _ _ s | SignedOther _ _ s => s
  end.

Definition fixture_serialize (m : Message) : string :=
  match m with
  | Delivered _ _ => "Delivered"
  | Ping _ _ _ => "Ping"
  | Pong _ _ => "Pong"
  | Processed _ _ => "Processed"
  | SignedRetrieable _ _ p _ => p
  | SignedOther _ p _ => p
  end.

Definition fixture_collaborators : Collaborators :=
  {| serialize := fixture_serialize;
     timeout_exponential_backoff :=
       fun retries timeout maximum k =>
         if (Z.of_nat k <? retries) then timeout else maximum;
     make_message_batches := fun texts => [String.concat newline texts];
     sign := fixture_sign;
     sender := fun m => if bool_decide (fixture_signature m = "") then None
                        else Some (fixture_signature m);
     validate_userid_signature := displayname;
     validate_and_parse_message :=
       fun body peer_address => [SignedRetrieable 7 11 body peer_address];
     CANONICAL_IDENTIFIER_UNORDERED_QUEUE :=
       {| chain_identifier := 0; token_network_address := "";
          channel_identifier := 0 |};
     JOIN_RETRIES := 10 |}.

Definition fixture_config : MatrixTransportConfig :=
  {| broadcast_rooms := ["discovery"]; retries_before_backoff := 5;
     retry_interval := 5 |}.

(** A peer address of 20 bytes and a queue identifier for it. *)
Definition fixture_peer : string := "bbbbbbbbbbbbbbbbbbbb".

Definition fixture_queue_identifier : QueueIdentifier :=
  {| recipient := fixture_peer;
     canonical_identifier :=
       {| chain_identifier := 1; token_network_address := "token network";
          channel_identifier := 7 |} |}.

Definition fixture_transfer : Message := SignedRetrieable 7 11 "LockedTransfer" "signed".

(** A view of a running transport: the Raiden queues, the reachability of
    every peer and the fate of every call of [_send_raw] are given; the clock
    stands still. *)
Definition fixture_view (pending : gmap QueueIdentifier (list Z))
           (reachability : AddressReachability) (send_raises : option Exn)
  : TransportView :=
  {| transport_greenlet := true; stop_event_ready := false;
     _prioritize_broadcast_messages := false;
     get_address_reachability := fun _ => reachability;
     _queueids_to_queues := pending;
     now := fun _ => 0;
     _send_raw_raises := fun _ => send_raises |}.

Definition fixture_stopped_view : TransportView :=
  {| transport_greenlet := true; stop_event_ready := true;
     _prioritize_broadcast_messages := false;
     get_address_reachability := fun _ => REACHABLE;
     _queueids_to_queues := ∅;
     now := fun _ => 0;
     _send_raw_raises := fun _ => None |}.

(** A started transport of the node [our_address] that has whitelisted the
    peer.  It knows a room whose only alias is its canonical alias and two
    private rooms; [room_ids] is its address map.  Every user it looks up
    carries a display name that validates to the peer. *)
Definition fixture_node : string := "aaaaaaaaaaaaaaaaaaaa".

Definition fixture_canonical_room : Room :=
  {| room_id := "!broadcast"; aliases := [];
     canonical_alias := Some "#raiden_1_discovery:server";
     invite_only := false; joined_members := [] |}.

Definition fixture_private_room (room : string) : Room :=
  {| room_id := room; aliases := []; canonical_alias := None;
     invite_only := true; joined_members := [] |}.

Definition fixture_transport (our_address : string)
           (room_ids : gmap string (list string)) : MatrixTransport :=
  {| _config := fixture_config; _stop_event := false;
     _raiden_service := Some our_address; _user_id := "@self:server";
     client_rooms :=
       {[ "!broadcast" := fixture_canonical_room;
          "!private" := fixture_private_room "!private";
          "!older" := fixture_private_room "!older" ]};
     client_get_user :=
       fun user => {| user_id := user; displayname := Some fixture_peer |};
     _address_to_room_ids := room_ids;
     _address_to_retrier := ∅;
     known_addresses := {[ fixture_node; fixture_peer ]};
     userids_for_address := ∅;
     userid_presence := ∅ |}.

(** One text event of the peer in its private room. *)
Definition fixture_sync_messages : list (Room * list MatrixMessage) :=
  [(fixture_private_room "!private",
    [{| event_type := Some "m.room.message"; msgtype := Some "m.text";
        event_sender := Some "@peer:server"; body := Some "LockedTransfer" |}])].

(** A room service on which the peer has one validated user, who joins the
    room created for it at once. *)
Definition fixture_peer_user (address : string) : User :=
  {| user_id := "@peer:server"; displayname := Some address |}.

Definition fixture_room_service (address : string) : RoomService :=
  {| search_user_directory := fun _ => [fixture_peer_user address];
     create_room := fun _ =>
       {| room_id := "!private"; aliases := []; canonical_alias := None;
          invite_only := true; joined_members := [] |};
     get_joined_members := fun _ => Returned [fixture_peer_user address];
     stop_event_wait := fun _ => false;
     leave_raises := false |}.

(** Retry queues for the peer: one holding a transfer, one holding a
    [Delivered] and then the transfer. *)
Definition fixture_transfer_queue : _RetryQueue :=
  (@enqueue fixture_collaborators fixture_config (new_RetryQueue fixture_peer)
            fixture_queue_identifier fixture_transfer).1.

Definition fixture_delivered_queue : _RetryQueue :=
  (@enqueue_unordered fixture_collaborators fixture_config
                      (new_RetryQueue fixture_peer) (Delivered 3 "signed")).1.

Definition fixture_mixed_queue : _RetryQueue :=
  (@enqueue fixture_collaborators fixture_config fixture_delivered_queue
            fixture_queue_identifier fixture_transfer).1.

Definition fixture_delivered_entry : _MessageData :=
  {| queue_identifier := @unordered_queue fixture_collaborators fixture_peer;
     message := Delivered 3 "signed"; text := "Delivered";
     expiration_generator := 0%nat |}.

Definition fixture_transfer_entry (ref : nat) : _MessageData :=
  {| queue_identifier := fixture_queue_identifier;
     message := fixture_transfer; text := "LockedTransfer";
     expiration_generator := ref |}.

(** A clock that advances by one at every reading. *)
Definition fixture_clock (reads : nat) : Z := Z.of_nat reads.

(** The transport once the peer has joined its private room and is
    online. *)
Definition fixture_joined_room : Room :=
  {| room_id := "!private"; aliases := []; canonical_alias := None;
     invite_only := true; joined_members := [fixture_peer_user fixture_peer] |}.

Definition fixture_online_transport : MatrixTransport :=
  {| _config := fixture_config; _stop_event := false;
     _raiden_service := Some fixture_node; _user_id := "@self:server";
     client_rooms := {[ "!private" := fixture_joined_room ]};
     client_get_user :=
       fun user => {| user_id := user; displayname := Some fixture_peer |};
     _address_to_room_ids := {[ fixture_peer := ["!private"] ]};
     _address_to_retrier := ∅;
     known_addresses := {[ fixture_node; fixture_peer ]};
     userids_for_address := {[ fixture_peer := {[ "@peer:server" ]} ]};
     userid_presence := {[ "@peer:server" := ONLINE ]} |}.

(** Room services on which the members of the new room cannot be fetched
    (the server answers 503), and on which only this node is ever found in
    the room. *)
Definition fixture_failing_room_service : RoomService :=
  {| search_user_directory := fun _ => [fixture_peer_user fixture_peer];
     create_room := fun _ => fixture_private_room "!private";
     get_joined_members := fun _ => Raised (MatrixRequestError 503);
     stop_event_wait := fun _ => false;
     leave_raises := false |}.

Definition fixture_self_user : User :=
  {| user_id := "@self:server"; displayname := Some fixture_node |}.

Definition fixture_lonely_room_service : RoomService :=
  {| search_user_directory := fun _ => [fixture_peer_user fixture_peer];
     create_room := fun _ => fixture_private_room "!private";
     get_joined_members := fun _ => Returned [fixture_self_user];
     stop_event_wait := fun _ => false;
     leave_raises := false |}.

(** A sync with an event of the peer whose content has been removed. *)
Definition fixture_redacted_sync : list (Room * list MatrixMessage) :=
  [(fixture_private_room "!private",
    [{| event_type := Some "m.room.message"; msgtype := None;
        event_sender := Some "@peer:server"; body := None |}])].

(** Rounds of the loop of a retry queue: the transfer arrives twice while
    the peer is reachable; a [Delivered] arrives while it is not. *)
Definition fixture_busy_round : Round :=
  {| arrivals := [(fixture_queue_identifier, fixture_transfer);
                  (fixture_queue_identifier, fixture_transfer)];
     transport_view :=
       fixture_view {[ fixture_queue_identifier := [11] ]} REACHABLE None |}.

Definition fixture_held_round : Round :=
  {| arrivals := [(@unordered_queue fixture_collaborators fixture_peer,
                   Delivered 3 "signed")];
     transport_view := fixture_view ∅ UNREACHABLE None |}.

(** * Properties *)

(** ** Lists and strings *)

Lemma list_remove_app_notin `{EqDecision A} (x : A) (l1 l2 : list A) :
  x ∉ l1 → list_remove x (l1 ++ x :: l2) = Some (l1 ++ l2).
Proof.
  induction l1 as [|y l1 IH]; intros Hnotin; simpl.
  - by rewrite decide_True.
  - apply not_elem_of_cons in Hnotin as [Hne Hnotin].
    rewrite decide_False by done. by rewrite IH.
Qed.

Lemma existsb_elem_of {A} (f : A → bool) (l : list A) :
  existsb f l = true ↔ ∃ x, x ∈ l ∧ f x = true.
Proof.
  rewrite existsb_exists. split; intros (x & Hx & Hf); exists x; split;
    try done; by apply list_elem_of_In.
Qed.

(** ** The retry queue *)

Section RetryQueueFacts.
Context `{Collaborators}.

Lemma already_queued_spec q qid m :
  already_queued q qid m = true
  ↔ ∃ data, data ∈ _message_queue q
            ∧ queue_identifier data = qid ∧ message data = m.
Proof.
  unfold already_queued. rewrite existsb_elem_of.
  split; intros (data & Hin & Hd); exists data; split; try done.
  - apply andb_true_iff in Hd as [H1 H2].
    apply bool_decide_eq_true in H1, H2. by subst.
  - destruct Hd as [<- <-]. by rewrite !bool_decide_eq_true_2.
Qed.

Lemma enqueue_receiver cfg q qid m : receiver (enqueue cfg q qid m).1 = receiver q.
Proof. unfold enqueue. by repeat case_match. Qed.

Lemma enqueue_greenlet_ready cfg q qid m :
  greenlet_ready (enqueue cfg q qid m).1 = greenlet_ready q.
Proof. unfold enqueue. by repeat case_match. Qed.

(** Entries already buffered stay buffered. *)
Lemma enqueue_keeps cfg q qid m data :
  data ∈ _message_queue q → data ∈ _message_queue (enqueue cfg q qid m).1.
Proof.
  intros Hin. unfold enqueue. repeat case_match; simpl; try done.
  apply elem_of_app. by left.
Qed.

(** After a call that passed the assertion the pair is buffered. *)
Lemma enqueue_queued cfg q qid m :
  recipient qid = receiver q →
  (enqueue cfg q qid m).2 = Returned ()
  ∧ already_queued (enqueue cfg q qid m).1 qid m = true.
Proof.
  intros Hrec. unfold enqueue. rewrite bool_decide_eq_true_2 by done. simpl.
  destruct (already_queued q qid m) eqn:Hq; simpl; [done|].
  split; [done|]. apply already_queued_spec. eexists. split.
  - apply elem_of_app. right. apply list_elem_of_singleton. reflexivity.
  - done.
Qed.

(** Every entry of a buffer that only [enqueue] has added to is addressed
    to the receiver of the queue. *)
Lemma enqueue_addressed cfg q qid m :
  entries_addressed q → entries_addressed (enqueue cfg q qid m).1.
Proof.
  intros Haddressed. unfold enqueue.
  destruct (bool_decide (recipient qid = receiver q)) eqn:Hrec; [|done].
  apply bool_decide_eq_true in Hrec. simpl.
  destruct (already_queued q qid m); [done|].
  intros data. simpl. intros [Hin|Hin]%elem_of_app; [by apply Haddressed|].
  apply list_elem_of_singleton in Hin. by subst data.
Qed.

(** A duplicate addressed to the receiver makes [enqueue] return at once. *)
Lemma enqueue_duplicate_returns cfg q qid m :
  recipient qid = receiver q →
  already_queued q qid m = true →
  enqueue cfg q qid m = (q, Returned ()).
Proof.
  intros Hrec Hq. unfold enqueue. by rewrite bool_decide_eq_true_2, Hq.
Qed.

(** C6.  A pair that is already buffered is ignored by [enqueue]: the queue
    (its buffer, and everything else) is left as it was; and enqueuing the
    same pair a second time leaves the length of the buffer unchanged,
    whatever the queue was before the first call.  The duplicate is ignored
    silently: the call returns, without an exception, whenever the pair is
    addressed to the receiver of the queue, as every entry is in a buffer
    that only [enqueue] has added to (the buffer of a new queue, and of any
    queue [enqueue] has been called on since). *)
Theorem enqueue_duplicate_ignored cfg q qid m :
  ((∃ data, data ∈ _message_queue q
            ∧ queue_identifier data = qid ∧ message data = m) →
   (enqueue cfg q qid m).1 = q)
  ∧ length (_message_queue (enqueue cfg (enqueue cfg q qid m).1 qid m).1)
    = length (_message_queue (enqueue cfg q qid m).1)
  ∧ ((∃ data, data ∈ _message_queue q
              ∧ queue_identifier data = qid ∧ message data = m) →
     recipient qid = receiver q →
     enqueue cfg q qid m = (q, Returned ()))
  ∧ (recipient qid = receiver q →
     enqueue cfg (enqueue cfg q qid m).1 qid m
     = ((enqueue cfg q qid m).1, Returned ()))
  ∧ (entries_addressed q →
     (∃ data, data ∈ _message_queue q
              ∧ queue_identifier data = qid ∧ message data = m) →
     enqueue cfg q qid m = (q, Returned ()))
  ∧ (∀ address, entries_addressed (new_RetryQueue address))
  ∧ (entries_addressed q → entries_addressed (enqueue cfg q qid m).1).
Proof.
  assert (Hdup : ∀ q', already_queued q' qid m = true → (enqueue cfg q' qid m).1 = q').
  { intros q' Hq. unfold enqueue. rewrite Hq. by case_match. }
  split; [|split; [|split; [|split; [|split; [|split]]]]].
  - intros Hex. apply Hdup. by apply already_queued_spec.
  - destruct (decide (recipient qid = receiver q)) as [Hrec|Hrec].
    + rewrite Hdup; [done|]. by apply enqueue_queued.
    + unfold enqueue at 2 3. rewrite bool_decide_eq_false_2 by done. simpl.
      unfold enqueue. by rewrite bool_decide_eq_false_2.
  - intros Hex Hrec. apply enqueue_duplicate_returns; [done|].
    by apply already_queued_spec.
  - intros Hrec. apply enqueue_duplicate_returns.
    + by rewrite enqueue_receiver.
    + by apply enqueue_queued.
  - intros Haddressed (data & Hin & Hqid & Hm).
    apply enqueue_duplicate_returns.
    + rewrite <- Hqid. by apply Haddressed.
    + apply already_queued_spec. by exists data.
  - by intros address data ?%elem_of_nil.
  - apply enqueue_addressed.
Qed.

(** *** The collection loop *)

Lemma collect_app view l1 l2 st :
  collect view (l1 ++ l2) st
  = match collect view l1 st with
    | (st', None) => collect view l2 st'
    | (st', Some e) => (st', Some e)
    end.
Proof.
  revert st. induction l1 as [|d l1 IH]; intros st; simpl; [done|].
  destruct (collect_step view d st) as [st' [e|]]; [done|]. apply IH.
Qed.

Lemma collect_step_other_fields view data st st' err :
  collect_step view data st = (st', err) →
  receiver (queue st') = receiver (queue st)
  ∧ _idle_since (queue st') = _idle_since (queue st)
  ∧ _notify_event (queue st') = _notify_event (queue st)
  ∧ greenlet_ready (queue st') = greenlet_ready (queue st)
  ∧ allocated (queue st') = allocated (queue st).
Proof.
  unfold collect_step, remove_entry. intros Hstep.
  repeat case_match; simplify_eq; done.
Qed.

(** The loop never raises when it starts on a copy of the buffer, and it
    leaves exactly the entries [kept] selects, in their order.  [done] are
    the entries already visited, [snapshot] those still to visit. *)
Lemma collect_buffer view done snapshot st :
  _message_queue (queue st) = filter (fun d => kept view d = true) done ++ snapshot →
  ∃ st', collect view snapshot st = (st', None)
         ∧ _message_queue (queue st')
           = filter (fun d => kept view d = true) (done ++ snapshot).
Proof.
  revert done st. induction snapshot as [|d snapshot IH]; intros done st Hbuf.
  - exists st. by rewrite !app_nil_r in *.
  - assert (Hremove : kept view d = false →
              list_remove d (_message_queue (queue st))
              = Some (filter (fun d => kept view d = true) (done ++ [d]) ++ snapshot)).
    { intros Hk. rewrite Hbuf, list_remove_app_notin.
      - rewrite filter_app. simpl. rewrite filter_cons_False, filter_nil, app_nil_r; [done|].
        by rewrite Hk.
      - intros [Hin _]%list_elem_of_filter. by rewrite Hk in Hin. }
    simpl.
    destruct (collect_step view d st) as [st1 err] eqn:Hstep.
    assert (err = None ∧ _message_queue (queue st1)
                         = filter (fun d => kept view d = true) (done ++ [d]) ++ snapshot)
      as [-> Hbuf1].
    { unfold collect_step, remove_entry in Hstep. unfold kept in Hremove.
      destruct (is_transport_internal (message d)) eqn:Hint; simpl in *.
      - rewrite Hremove in Hstep by done. by simplify_eq.
      - destruct (message_is_in_queue view d) eqn:Hinq; simpl in *.
        + destruct (expiration_next _ _ _) as [[ready g] reads]. simplify_eq. simpl.
          split; [done|]. rewrite Hbuf, filter_app. simpl.
          rewrite filter_cons_True, filter_nil, <- app_assoc; [done|].
          unfold kept. by rewrite Hint, Hinq.
        + rewrite Hremove in Hstep by done. by simplify_eq. }
    destruct (IH (done ++ [d]) st1 Hbuf1) as (st' & Hc & Hq).
    exists st'. split; [done|]. by rewrite <- app_assoc in Hq.
Qed.

Lemma collect_from_buffer view q :
  ∃ st, collect view (_message_queue q) (collecting q) = (st, None)
        ∧ _message_queue (queue st)
          = filter (fun d => kept view d = true) (_message_queue q).
Proof. apply (collect_buffer view [] (_message_queue q) (collecting q)). done. Qed.

Lemma collect_step_texts view data st st' err :
  collect_step view data st = (st', err) →
  ∀ t, t ∈ message_texts st → t ∈ message_texts st'.
Proof.
  unfold collect_step, remove_entry. intros Hstep t Ht.
  repeat case_match; simplify_eq; simpl; try done; apply elem_of_app; by left.
Qed.

Lemma collect_texts view snapshot st st' err :
  collect view snapshot st = (st', err) →
  ∀ t, t ∈ message_texts st → t ∈ message_texts st'.
Proof.
  revert st. induction snapshot as [|d snapshot IH]; intros st Hc t Ht; simpl in Hc.
  - by simplify_eq.
  - destruct (collect_step view d st) as [st1 [e|]] eqn:Hstep.
    + simplify_eq. by eapply collect_step_texts.
    + eapply IH; [done|]. by eapply collect_step_texts.
Qed.

(** What the loop does with the entry it has reached. *)
Lemma collect_step_internal view data st st' err :
  collect_step view data st = (st', err) →
  is_transport_internal (message data) = true →
  text data ∈ message_texts st'.
Proof.
  unfold collect_step, remove_entry. intros Hstep Hint. rewrite Hint in Hstep.
  case_match; simplify_eq; simpl; apply elem_of_app; right; by apply list_elem_of_singleton.
Qed.

Lemma collect_step_ready view data st st' err :
  collect_step view data st = (st', err) →
  is_transport_internal (message data) = false →
  message_is_in_queue view data = true →
  (expiration_next (now view) (clock_reads st)
                   (generators (queue st) !!! expiration_generator data)).1.1 = true →
  text data ∈ message_texts st'.
Proof.
  unfold collect_step. intros Hstep Hint Hinq. rewrite Hint, Hinq in Hstep.
  simpl in Hstep.
  destruct (expiration_next _ _ _) as [[ready g] reads]. simpl. intros ->.
  simplify_eq. simpl. apply elem_of_app. right. by apply list_elem_of_singleton.
Qed.

(** The text of an entry that the loop has reached and collected is among
    the texts at the end. *)
Lemma collect_reached view before data after st0 st1 st :
  collect view before st0 = (st1, None) →
  collect view (before ++ data :: after) st0 = (st, None) →
  ∃ st2, collect_step view data st1 = (st2, None)
         ∧ ∀ t, t ∈ message_texts st2 → t ∈ message_texts st.
Proof.
  intros Hbefore Hall. rewrite collect_app, Hbefore in Hall. simpl in Hall.
  destruct (collect_step view data st1) as [st2 [e|]] eqn:Hstep; [done|].
  exists st2. split; [done|]. by eapply collect_texts.
Qed.

Lemma collect_prefix_ok view before after st0 st :
  collect view (before ++ after) st0 = (st, None) →
  ∃ st1, collect view before st0 = (st1, None).
Proof.
  rewrite collect_app. destruct (collect view before st0) as [st1 [e|]]; [done|].
  by exists st1.
Qed.

Lemma send_batches_effects view receiver batches k effects err :
  send_batches view receiver batches k = (effects, err) →
  ∀ effect, effect ∈ effects → ∃ batch, batch ∈ batches ∧ effect = SendRaw receiver batch.
Proof.
  revert k effects err. induction batches as [|b batches IH]; intros k effects err Hs; simpl in Hs.
  - simplify_eq. by intros ? ?%elem_of_nil.
  - destruct (_send_raw_raises view k).
    + simplify_eq. intros effect ->%list_elem_of_singleton. exists b. split; [left|done].
    + destruct (send_batches view receiver batches (S k)) as [sent err'] eqn:Hrest.
      simplify_eq. intros effect [->|Hin]%elem_of_cons.
      * exists b. split; [left|done].
      * destruct (IH _ _ _ Hrest effect Hin) as (batch & Hb & ->).
        exists batch. split; [by right|done].
Qed.

(** Behind the reachability gate nothing is sent and nothing changes. *)
Lemma check_and_send_unreachable view q :
  get_address_reachability view (receiver q) ≠ REACHABLE →
  ∃ effects, _check_and_send view q = (q, effects, None)
             ∧ ∀ effect, effect ∈ effects → effect = BroadcastQueueJoin.
Proof.
  intros Hreach. unfold _check_and_send.
  destruct (transport_greenlet view); simpl;
    [|exists []; split; [done|by intros ? ?%elem_of_nil]].
  destruct (stop_event_ready view);
    [exists []; split; [done|by intros ? ?%elem_of_nil]|].
  rewrite bool_decide_eq_false_2 by done. simpl.
  eexists. split; [done|]. intros effect Hin.
  destruct (_prioritize_broadcast_messages view).
  - by apply list_elem_of_singleton in Hin.
  - by apply elem_of_nil in Hin.
Qed.

(** Past its guards [_check_and_send] runs the loop on a copy of the buffer
    and then sends; the queue it leaves is the one the loop left. *)
Lemma check_and_send_reachable view q :
  transport_greenlet view = true →
  stop_event_ready view = false →
  get_address_reachability view (receiver q) = REACHABLE →
  ∃ st, collect view (_message_queue q) (collecting q) = (st, None)
        ∧ (_check_and_send view q).1.1 = queue st
        ∧ _message_queue (queue st)
          = filter (fun d => kept view d = true) (_message_queue q).
Proof.
  intros Hstarted Hstop Hreach.
  destruct (collect_from_buffer view q) as (st & Hc & Hq).
  exists st. split; [done|]. split; [|done].
  unfold _check_and_send. rewrite Hstarted, Hstop, Hreach, Hc. simpl.
  by destruct (send_batches _ _ _ _).
Qed.

(** An exception leaves [_check_and_send] only from a call of [_send_raw],
    that is past the guards and after the loop. *)
Lemma check_and_send_raised view q q' effects e :
  _check_and_send view q = (q', effects, Some e) →
  transport_greenlet view = true
  ∧ stop_event_ready view = false
  ∧ get_address_reachability view (receiver q) = REACHABLE
  ∧ ∃ batch, SendRaw (receiver q) batch ∈ effects.
Proof.
  unfold _check_and_send. intros Hcs.
  destruct (transport_greenlet view); [|done].
  destruct (stop_event_ready view); [done|]. simpl in Hcs.
  destruct (decide (get_address_reachability view (receiver q) = REACHABLE)) as [Hr|Hr].
  2: { by rewrite bool_decide_eq_false_2 in Hcs. }
  rewrite bool_decide_eq_true_2 in Hcs by done. simpl in Hcs.
  destruct (collect_from_buffer view q) as (st & Hc & _). rewrite Hc in Hcs.
  destruct (send_batches _ _ _ _) as [sent err] eqn:Hsend. simplify_eq.
  repeat split; try done.
  destruct (match message_texts st with [] => [] | _ :: _ => _ end) as [|b bs];
    simpl in Hsend; [done|].
  exists b. apply elem_of_app. right.
  destruct (_send_raw_raises view 0).
  - simplify_eq. left.
  - destruct (send_batches view (receiver q) bs 1). simplify_eq. left.
Qed.

(** C2.  When the reachability of the peer of a retry queue is not
    [REACHABLE], neither [_check_and_send] nor a whole iteration of the loop
    calls [_send_raw], and the buffered entries (and the generators they
    refer to) are left as they were. *)
Theorem unreachable_peer_no_send view q :
  get_address_reachability view (receiver q) ≠ REACHABLE →
  (∃ effects, _check_and_send view q = (q, effects, None)
              ∧ ∀ address data, SendRaw address data ∉ effects)
  ∧ (∃ q' effects status, _run_iteration view q = (q', effects, status)
       ∧ _message_queue q' = _message_queue q
       ∧ generators q' = generators q
       ∧ ∀ address data, SendRaw address data ∉ effects).
Proof.
  intros Hreach. split.
  - destruct (check_and_send_unreachable view q Hreach) as (effects & Hcs & Heff).
    exists effects. split; [done|]. intros address data Hin. by apply Heff in Hin.
  - unfold _run_iteration. destruct (stop_event_ready view) eqn:Hstop.
    { eexists _, _, _. split; [done|]. repeat split. by intros ? ? ?%elem_of_nil. }
    simpl. destruct (_message_queue q) as [|d l] eqn:Hq.
    { simpl. case_match; eexists _, _, _; (split; [done|]); simpl; rewrite ?Hq;
        repeat split; by intros ? ? ?%elem_of_nil. }
    destruct (check_and_send_unreachable view
                (set_idle_since 0 (set_notify_event false q)) Hreach)
      as (effects & Hcs & Heff).
    rewrite Hcs. case_match; eexists _, _, _; (split; [done|]); simpl; rewrite ?Hq;
      repeat split; intros address data Hin; by apply Heff in Hin.
Qed.

(** C4, as the code has it.  When a call of [_send_raw] raises during
    [_check_and_send], the queue is left exactly as the collection loop left
    it: the failed send removes nothing.  Every buffered entry that is not a
    [Delivered], [Ping] or [Pong] and that the Raiden queues still list (so
    every retryable entry whose text was collected) is still buffered; the
    [Delivered], [Ping] and [Pong] entries were removed by the loop before
    the send and are not buffered any more. *)
Theorem failed_send_removes_nothing view q q' effects e :
  _check_and_send view q = (q', effects, Some e) →
  ∃ st, collect view (_message_queue q) (collecting q) = (st, None)
        ∧ q' = queue st
        ∧ (∃ batch, SendRaw (receiver q) batch ∈ effects)
        ∧ (∀ data, data ∈ _message_queue q →
                   is_transport_internal (message data) = false →
                   message_is_in_queue view data = true →
                   data ∈ _message_queue q')
        ∧ (∀ data, data ∈ _message_queue q →
                   is_transport_internal (message data) = true →
                   text data ∈ message_texts st ∧ data ∉ _message_queue q').
Proof.
  intros Hcs.
  destruct (check_and_send_raised _ _ _ _ _ Hcs) as (Hstarted & Hstop & Hreach & Hsent).
  destruct (check_and_send_reachable view q Hstarted Hstop Hreach) as (st & Hc & Hq & Hbuf).
  rewrite Hcs in Hq. simpl in Hq. subst q'.
  exists st. split; [done|]. split; [done|]. split; [done|]. split.
  - intros data Hin Hint Hinq. rewrite Hbuf. apply list_elem_of_filter. split; [|done].
    unfold kept. by rewrite Hint, Hinq.
  - intros data Hin Hint. split.
    + apply list_elem_of_split in Hin as (before & after & Hsplit).
      rewrite Hsplit in Hc.
      destruct (collect_prefix_ok _ _ _ _ _ Hc) as (st1 & Hbefore).
      destruct (collect_reached _ _ _ _ _ _ _ Hbefore Hc) as (st2 & Hstep & Hmono).
      apply Hmono. by eapply collect_step_internal.
    + rewrite Hbuf. intros [Hk _]%list_elem_of_filter. unfold kept in Hk.
      by rewrite Hint in Hk.
Qed.

(** C5, as the code has it.  The collection loop of [_check_and_send],
    started on the buffer, never raises.  Every buffered [Delivered], [Ping]
    or [Pong] entry has its text collected and is removed.  An entry of
    another kind that the Raiden queues still list, and whose expiration
    generator yields [True] when the loop reaches it, has its text collected
    and stays buffered; one that the Raiden queues no longer list is removed
    (its generator is not consulted).  Past the guards of [_check_and_send]
    the queue it leaves is the one the loop left.  The pass of the loop over
    an entry of the last kind evaluates nothing: it is a step of the loop
    that leaves every generator, the number of clock readings and the
    collected texts as it found them. *)
Theorem collection_loop_entries view q :
  ∃ st, collect view (_message_queue q) (collecting q) = (st, None)
    ∧ (∀ data, data ∈ _message_queue q →
               is_transport_internal (message data) = true →
               text data ∈ message_texts st ∧ data ∉ _message_queue (queue st))
    ∧ (∀ before data after st1,
         _message_queue q = before ++ data :: after →
         collect view before (collecting q) = (st1, None) →
         is_transport_internal (message data) = false →
         message_is_in_queue view data = true →
         (expiration_next (now view) (clock_reads st1)
            (generators (queue st1) !!! expiration_generator data)).1.1 = true →
         text data ∈ message_texts st ∧ data ∈ _message_queue (queue st))
    ∧ (∀ data, data ∈ _message_queue q →
               is_transport_internal (message data) = false →
               message_is_in_queue view data = false →
               data ∉ _message_queue (queue st))
    ∧ (transport_greenlet view = true →
       stop_event_ready view = false →
       get_address_reachability view (receiver q) = REACHABLE →
       (_check_and_send view q).1.1 = queue st)
    ∧ (∀ before data after st1,
         _message_queue q = before ++ data :: after →
         collect view before (collecting q) = (st1, None) →
         is_transport_internal (message data) = false →
         message_is_in_queue view data = false →
         ∃ st2, collect_step view data st1 = (st2, None)
                ∧ collect view after st2 = (st, None)
                ∧ generators (queue st2) = generators (queue st1)
                ∧ clock_reads st2 = clock_reads st1
                ∧ message_texts st2 = message_texts st1).
Proof.
  destruct (collect_from_buffer view q) as (st & Hc & Hbuf).
  exists st. split; [done|]. split; [|split; [|split; [|split]]].
  - intros data Hin Hint. split.
    + apply list_elem_of_split in Hin as (before & after & Hsplit).
      rewrite Hsplit in Hc.
      destruct (collect_prefix_ok _ _ _ _ _ Hc) as (st1 & Hbefore).
      destruct (collect_reached _ _ _ _ _ _ _ Hbefore Hc) as (st2 & Hstep & Hmono).
      apply Hmono. by eapply collect_step_internal.
    + rewrite Hbuf. intros [Hk _]%list_elem_of_filter. unfold kept in Hk.
      by rewrite Hint in Hk.
  - intros before data after st1 Hsplit Hbefore Hint Hinq Hready. split.
    + rewrite Hsplit in Hc.
      destruct (collect_reached _ _ _ _ _ _ _ Hbefore Hc) as (st2 & Hstep & Hmono).
      apply Hmono. by eapply collect_step_ready.
    + rewrite Hbuf. apply list_elem_of_filter. split.
      * unfold kept. by rewrite Hint, Hinq.
      * rewrite Hsplit. apply elem_of_app. right. left.
  - intros data Hin Hint Hinq. rewrite Hbuf.
    intros [Hk _]%list_elem_of_filter. unfold kept in Hk.
    by rewrite Hint, Hinq in Hk.
  - intros Hstarted Hstop Hreach.
    destruct (check_and_send_reachable view q Hstarted Hstop Hreach) as (st' & Hc' & Hq & _).
    rewrite Hc in Hc'. by simplify_eq.
  - intros before data after st1 Hsplit Hbefore Hint Hinq.
    rewrite Hsplit, collect_app, Hbefore in Hc. simpl in Hc.
    destruct (collect_step view data st1) as [st2 [e|]] eqn:Hstep; [done|].
    exists st2. split; [done|]. split; [exact Hc|].
    unfold collect_step, remove_entry in Hstep. rewrite Hint, Hinq in Hstep.
    simpl in Hstep.
    destruct (list_remove data (_message_queue (queue st1))); by simplify_eq.
Qed.

(** *** The loop *)

Lemma is_idle_spec q : is_idle q = true ↔ (RETRY_QUEUE_IDLE_AFTER ≤ _idle_since q)%nat.
Proof. unfold is_idle. apply bool_decide_eq_true. Qed.

(** An iteration that finds the stop event clear and the buffer empty. *)
Lemma run_iteration_empty view q :
  stop_event_ready view = false →
  _message_queue q = [] →
  _run_iteration view q
  = let q' := set_idle_since (S (_idle_since q)) (set_notify_event false q) in
    if is_idle q' then (set_greenlet_ready true q', [], ExitIdle)
    else (q', [], Waiting).
Proof. intros Hstop Hq. unfold _run_iteration. rewrite Hstop. simpl. by rewrite Hq. Qed.

(** Rounds in which nothing arrives and the transport keeps running: the
    loop counts them, keeps waiting while fewer than
    [RETRY_QUEUE_IDLE_AFTER] have passed, and exits on the one that reaches
    it. *)
Lemma idle_rounds cfg rounds q :
  Forall (fun r => stop_event_ready (transport_view r) = false ∧ arrivals r = []) rounds →
  _message_queue q = [] →
  ((_idle_since q + length rounds < RETRY_QUEUE_IDLE_AFTER)%nat →
   ∃ q', _run_loop cfg rounds q = (q', [], Waiting)
         ∧ _idle_since q' = (_idle_since q + length rounds)%nat
         ∧ _message_queue q' = []
         ∧ greenlet_ready q' = greenlet_ready q)
  ∧ (rounds ≠ [] →
     (_idle_since q + length rounds)%nat = RETRY_QUEUE_IDLE_AFTER →
     ∃ q', _run_loop cfg rounds q = (q', [], ExitIdle)
           ∧ _idle_since q' = RETRY_QUEUE_IDLE_AFTER
           ∧ greenlet_ready q' = true).
Proof.
  revert q. induction rounds as [|r rounds IH]; intros q Hrounds Hq.
  { split; [|done]. intros _. exists q. simpl. repeat split; try done. }
  apply Forall_cons in Hrounds as [[Hstop Harr] Hrounds].
  set (q1 := set_idle_since (S (_idle_since q)) (set_notify_event false q)).
  assert (Hstep : _run_iteration (transport_view r) (enqueue_all cfg q (arrivals r))
                  = if is_idle q1 then (set_greenlet_ready true q1, [], ExitIdle)
                    else (q1, [], Waiting)).
  { rewrite Harr. simpl. by rewrite run_iteration_empty. }
  destruct (IH q1 Hrounds Hq) as [IHwait IHexit].
  simpl length. split.
  - intros Hlt. simpl. rewrite Hstep.
    destruct (is_idle q1) eqn:Hidle.
    { apply is_idle_spec in Hidle. simpl in Hidle. lia. }
    destruct IHwait as (q' & Hloop & Hcount & Hempty & Hready); [simpl; lia|].
    exists q'. rewrite Hloop. repeat split; try done. simpl in Hcount. lia.
  - intros _ Hten. simpl. rewrite Hstep.
    destruct rounds as [|r' rounds].
    + destruct (is_idle q1) eqn:Hidle.
      * eexists. split; [done|]. simpl in *. split; [lia|done].
      * apply not_true_iff_false in Hidle. rewrite is_idle_spec in Hidle.
        simpl in *. lia.
    + destruct (is_idle q1) eqn:Hidle.
      { apply is_idle_spec in Hidle. simpl in *. lia. }
      destruct IHexit as (q' & Hloop & Hcount & Hready); [done|simpl in *; lia|].
      exists q'. by rewrite Hloop.
Qed.

Lemma collect_other_fields view snapshot st st' err :
  collect view snapshot st = (st', err) →
  receiver (queue st') = receiver (queue st)
  ∧ _idle_since (queue st') = _idle_since (queue st).
Proof.
  revert st. induction snapshot as [|d snapshot IH]; intros st Hc; simpl in Hc.
  - by simplify_eq.
  - destruct (collect_step view d st) as [st1 [e|]] eqn:Hstep.
    + simplify_eq. by apply collect_step_other_fields in Hstep as (? & ? & _).
    + apply collect_step_other_fields in Hstep as (Hr & Hi & _).
      apply IH in Hc as [Hr' Hi']. split; congruence.
Qed.

Lemma check_and_send_other_fields view q :
  receiver (_check_and_send view q).1.1 = receiver q
  ∧ _idle_since (_check_and_send view q).1.1 = _idle_since q.
Proof.
  unfold _check_and_send.
  destruct (transport_greenlet view); [|done].
  destruct (stop_event_ready view); [done|]. simpl.
  destruct (bool_decide _); [|done]. simpl.
  destruct (collect view (_message_queue q) (collecting q)) as [st err] eqn:Hc.
  apply collect_other_fields in Hc.
  destruct err; [done|]. by destruct (send_batches _ _ _ _).
Qed.

(** A pass of the loop crashes exactly when it finds the buffer not empty
    and [_check_and_send] raises; the exception is the one raised. *)
Lemma run_iteration_crashed view q e :
  stop_event_ready view = false →
  (_run_iteration view q).2 = Crashed e
  ↔ _message_queue q ≠ []
    ∧ (_check_and_send view (set_idle_since 0 (set_notify_event false q))).2 = Some e.
Proof.
  intros Hstop. unfold _run_iteration. rewrite Hstop. simpl.
  destruct (_message_queue q) as [|d l] eqn:Hq.
  - split; [|by intros [? _]]. by case_match.
  - destruct (_check_and_send _ _) as [[q1 effects] [e'|]]; simpl.
    + split; [by intros [= ->]|]. by intros [_ [= ->]].
    + split; [by case_match|]. by intros [_ ?].
Qed.

(** A pass that does not reach the wait leaves the greenlet of the queue
    finished, and is the last one: the rounds that would follow are not
    run. *)
Lemma run_iteration_exit view q :
  (_run_iteration view q).2 ≠ Waiting →
  greenlet_ready (_run_iteration view q).1.1 = true.
Proof.
  unfold _run_iteration. destruct (stop_event_ready view); [done|]. simpl.
  destruct (match _message_queue (set_notify_event false q) with
            | [] => _
            | _ :: _ => _
            end) as [[q1 effects] [e|]]; simpl; [done|].
  by destruct (is_idle q1).
Qed.

Lemma run_loop_ends cfg r rest q0 :
  (_run_iteration (transport_view r) (enqueue_all cfg q0 (arrivals r))).2 ≠ Waiting →
  _run_loop cfg (r :: rest) q0
  = _run_iteration (transport_view r) (enqueue_all cfg q0 (arrivals r)).
Proof.
  simpl.
  destruct (_run_iteration _ _) as [[q1 effects] status]. simpl.
  by destruct status.
Qed.

(** C7, as the code has it.  One pass through the [while] loop of [_run]
    ends the loop when the stop event is set at its head, when
    [_check_and_send] raises (which only a call of [_send_raw] does), or
    when [is_idle] holds; with the stop event clear the loop returns as idle
    exactly when [is_idle] holds after the pass.  [is_idle] holds iff the
    counter has reached [RETRY_QUEUE_IDLE_AFTER], which is 10; a pass with a
    non-empty buffer sets the counter to zero and one with an empty buffer
    adds one, so the counter is the number of consecutive passes with an
    empty buffer: a queue that starts empty at zero, on a running transport
    and with nothing enqueued, keeps waiting for fewer than ten passes and
    exits on the tenth.  With the stop event clear a pass crashes, with the
    exception raised, exactly when the buffer is not empty and
    [_check_and_send] raises; a pass that ends in any way other than the
    wait leaves the greenlet finished and ends the loop, the rounds that
    would follow not being run. *)
Theorem run_loop_exits view q q' effects status :
  _run_iteration view q = (q', effects, status) →
  (is_idle q' = true ↔ (RETRY_QUEUE_IDLE_AFTER ≤ _idle_since q')%nat)
  ∧ RETRY_QUEUE_IDLE_AFTER = 10%nat
  ∧ (status = ExitStopped ↔ stop_event_ready view = true)
  ∧ (stop_event_ready view = false →
     (status = ExitIdle ↔ is_idle q' = true)
     ∧ (∀ e, status = Crashed e → ∃ batch, SendRaw (receiver q) batch ∈ effects)
     ∧ (_message_queue q ≠ [] → _idle_since q' = 0%nat)
     ∧ (_message_queue q = [] → _idle_since q' = S (_idle_since q)))
  ∧ (∀ cfg rounds q0,
       Forall (fun r => stop_event_ready (transport_view r) = false ∧ arrivals r = [])
              rounds →
       _message_queue q0 = [] → _idle_since q0 = 0%nat →
       ((length rounds < RETRY_QUEUE_IDLE_AFTER)%nat →
        (_run_loop cfg rounds q0).2 = Waiting)
       ∧ (length rounds = RETRY_QUEUE_IDLE_AFTER →
          (_run_loop cfg rounds q0).2 = ExitIdle))
  ∧ (stop_event_ready view = false →
     ∀ e, status = Crashed e
          ↔ _message_queue q ≠ []
            ∧ (_check_and_send view
                 (set_idle_since 0 (set_notify_event false q))).2 = Some e)
  ∧ (status ≠ Waiting → greenlet_ready q' = true)
  ∧ (∀ cfg r rest q0,
       (_run_iteration (transport_view r) (enqueue_all cfg q0 (arrivals r))).2
       ≠ Waiting →
       _run_loop cfg (r :: rest) q0
       = _run_iteration (transport_view r) (enqueue_all cfg q0 (arrivals r))).
Proof.
  intros Hrun.
  assert (Hends :
    (stop_event_ready view = false →
     ∀ e, status = Crashed e
          ↔ _message_queue q ≠ []
            ∧ (_check_and_send view
                 (set_idle_since 0 (set_notify_event false q))).2 = Some e)
    ∧ (status ≠ Waiting → greenlet_ready q' = true)
    ∧ (∀ cfg r rest q0,
         (_run_iteration (transport_view r) (enqueue_all cfg q0 (arrivals r))).2
         ≠ Waiting →
         _run_loop cfg (r :: rest) q0
         = _run_iteration (transport_view r) (enqueue_all cfg q0 (arrivals r)))).
  { split; [|split].
    - intros Hstop e. rewrite <- (run_iteration_crashed view q e Hstop).
      by rewrite Hrun.
    - intros Hexit. pose proof (run_iteration_exit view q) as Hready.
      rewrite Hrun in Hready. by apply Hready.
    - intros cfg r rest q0. apply run_loop_ends. }
  cut ((is_idle q' = true ↔ (RETRY_QUEUE_IDLE_AFTER ≤ _idle_since q')%nat)
       ∧ RETRY_QUEUE_IDLE_AFTER = 10%nat
       ∧ (status = ExitStopped ↔ stop_event_ready view = true)
       ∧ (stop_event_ready view = false →
          (status = ExitIdle ↔ is_idle q' = true)
          ∧ (∀ e, status = Crashed e → ∃ batch, SendRaw (receiver q) batch ∈ effects)
          ∧ (_message_queue q ≠ [] → _idle_since q' = 0%nat)
          ∧ (_message_queue q = [] → _idle_since q' = S (_idle_since q)))
       ∧ (∀ cfg rounds q0,
            Forall (fun r => stop_event_ready (transport_view r) = false
                             ∧ arrivals r = [])
                   rounds →
            _message_queue q0 = [] → _idle_since q0 = 0%nat →
            ((length rounds < RETRY_QUEUE_IDLE_AFTER)%nat →
             (_run_loop cfg rounds q0).2 = Waiting)
            ∧ (length rounds = RETRY_QUEUE_IDLE_AFTER →
               (_run_loop cfg rounds q0).2 = ExitIdle))).
  { intros (H1 & H2 & H3 & H4 & H5).
    split; [exact H1|]. split; [exact H2|]. split; [exact H3|].
    split; [exact H4|]. split; [exact H5|]. exact Hends. }
  clear Hends.
  split; [apply is_idle_spec|]. split; [done|].
  assert (Hrounds : ∀ cfg rounds q0,
       Forall (fun r => stop_event_ready (transport_view r) = false ∧ arrivals r = [])
              rounds →
       _message_queue q0 = [] → _idle_since q0 = 0%nat →
       ((length rounds < RETRY_QUEUE_IDLE_AFTER)%nat →
        (_run_loop cfg rounds q0).2 = Waiting)
       ∧ (length rounds = RETRY_QUEUE_IDLE_AFTER →
          (_run_loop cfg rounds q0).2 = ExitIdle)).
  { intros cfg rounds q0 Hall Hq0 Hzero.
    destruct (idle_rounds cfg rounds q0 Hall Hq0) as [Hwait Hexit]. split.
    - intros Hlt. destruct Hwait as (q1 & -> & _); [lia|done].
    - intros Hlen. destruct Hexit as (q1 & -> & _); [|lia|done].
      intros ->. by rewrite <- Hlen in *. }
  unfold _run_iteration in Hrun.
  destruct (stop_event_ready view) eqn:Hstop.
  { simplify_eq. done. }
  simpl in Hrun.
  assert (Hnot_stopped : status ≠ ExitStopped ∧
     (status = ExitIdle ↔ is_idle q' = true)
     ∧ (∀ e, status = Crashed e → ∃ batch, SendRaw (receiver q) batch ∈ effects)
     ∧ (_message_queue q ≠ [] → _idle_since q' = 0%nat)
     ∧ (_message_queue q = [] → _idle_since q' = S (_idle_since q))).
  { clear Hrounds. destruct (_message_queue q) as [|d l] eqn:Hq.
    - destruct (is_idle (set_idle_since _ _)) eqn:Hidle; simplify_eq;
        unfold is_idle in *; simpl in *; rewrite ?Hidle; naive_solver.
    - set (q1 := set_idle_since 0 (set_notify_event false q)) in *.
      destruct (check_and_send_other_fields view q1) as [Hrec Hzero].
      destruct (_check_and_send view q1) as [[q2 effects2] err] eqn:Hcs.
      simpl in Hrec, Hzero.
      assert (Hidle : is_idle q2 = false).
      { apply not_true_iff_false. rewrite is_idle_spec, Hzero.
        unfold RETRY_QUEUE_IDLE_AFTER. lia. }
      destruct err as [e|].
      + simplify_eq. split; [done|]. split; [|split].
        * unfold is_idle in *. simpl. rewrite Hidle. naive_solver.
        * intros e' _. by apply check_and_send_raised in Hcs as (_ & _ & _ & ?).
        * simpl. naive_solver.
      + rewrite Hidle in Hrun. simplify_eq. rewrite Hidle. naive_solver. }
  destruct Hnot_stopped as [Hne Hrest]. split; [|done].
  split; [done|]. by intros.
Qed.

End RetryQueueFacts.

(** ** Strings *)

Lemma append_cons (c : ascii) (s1 s2 : string) :
  (String c s1 ++ s2)%string = String c (s1 ++ s2)%string.
Proof. reflexivity. Qed.

Lemma append_empty (s : string) : ("" ++ s)%string = s.
Proof. reflexivity. Qed.

Lemma prefix_spec (s1 s2 : string) :
  String.prefix s1 s2 = true ↔ ∃ rest, s2 = (s1 ++ rest)%string.
Proof.
  revert s2. induction s1 as [|a s1 IH]; intros s2; simpl.
  - destruct s2; split; eauto.
  - destruct s2 as [|b s2]; simpl.
    + split; [done|]. intros [rest Hrest]. by rewrite append_cons in Hrest.
    + destruct (ascii_dec a b) as [->|Hne].
      * rewrite IH. split; intros [rest Hrest]; exists rest;
          rewrite append_cons in *; congruence.
      * split; [done|]. intros [rest Hrest]. rewrite append_cons in Hrest. congruence.
Qed.

(** [str_contains] is the substring test. *)
Lemma str_contains_spec (needle haystack : string) :
  str_contains needle haystack = true
  ↔ ∃ before after, haystack = (before ++ needle ++ after)%string.
Proof.
  induction haystack as [|c haystack IH].
  - change (str_contains needle "") with (String.prefix needle "" || false).
    rewrite orb_false_r, prefix_spec. split.
    + intros [rest Hrest]. by exists "", rest.
    + intros (before & after & Heq). destruct before as [|c before].
      * by exists after.
      * by rewrite append_cons in Heq.
  - change (str_contains needle (String c haystack))
      with (String.prefix needle (String c haystack) || str_contains needle haystack).
    rewrite orb_true_iff, prefix_spec, IH. split.
    + intros [[rest Hrest]|(before & after & Heq)].
      * by exists "", rest.
      * exists (String c before), after. rewrite append_cons. by rewrite Heq.
    + intros (before & after & Heq). destruct before as [|c' before].
      * left. by exists after.
      * right. exists before, after. rewrite append_cons in Heq. congruence.
Qed.

Lemma ltb_antisym (s1 s2 : string) :
  s1 ≠ s2 → String.ltb s1 s2 = negb (String.ltb s2 s1).
Proof.
  intros Hne. unfold String.ltb. rewrite (String.compare_antisym s1 s2).
  destruct (String.compare s2 s1) eqn:Hcmp; simpl; try done.
  apply String.compare_eq_iff in Hcmp. congruence.
Qed.

(** ** The transport *)

Section TransportFacts.
Context `{Collaborators}.

(** *** Rooms *)

(** What [_is_broadcast_room] computes: the canonical alias plays no part. *)
Lemma is_broadcast_room_spec t room :
  _is_broadcast_room t room = true
  ↔ ∃ suffix room_alias,
      suffix ∈ broadcast_rooms (_config t) ∧ room_alias ∈ aliases room
      ∧ str_contains suffix room_alias = true.
Proof.
  unfold _is_broadcast_room. rewrite existsb_elem_of. split.
  - intros (suffix & Hs & (room_alias & Ha & Hc)%existsb_elem_of). eauto.
  - intros (suffix & room_alias & Hs & Ha & Hc). exists suffix. split; [done|].
    apply existsb_elem_of. eauto.
Qed.

(** C9.  The code at a room whose only alias is its canonical alias,
    ["#raiden_1_discovery:server"], with the broadcast suffix ["discovery"]
    configured: the canonical alias contains the suffix, and
    [_is_broadcast_room] answers [False]. *)
Theorem is_broadcast_room_misses_canonical_alias :
  _is_broadcast_room (fixture_transport fixture_node ∅) fixture_canonical_room = false
  ∧ ∃ suffix room_alias,
      suffix ∈ broadcast_rooms (_config (fixture_transport fixture_node ∅))
      ∧ canonical_alias fixture_canonical_room = Some room_alias
      ∧ str_contains suffix room_alias = true.
Proof.
  split; [reflexivity|].
  exists "discovery", "#raiden_1_discovery:server".
  split; [apply list_elem_of_singleton; reflexivity|]. split; reflexivity.
Qed.

Lemma get_room_ids_sublist t address :
  (_get_room_ids_for_address t address) `sublist_of` (_address_to_room_ids t !!! address).
Proof. apply sublist_filter. Qed.

(** C10, as the code has it.  After a call of [_set_room_id_for_address]
    that passed its assertion, the list stored for the address starts with
    the room id, has no other occurrence of it, and goes on with the other
    room ids that [_get_room_ids_for_address] returned before the call, in
    their order (a sublist of the list stored before); the lists of other
    addresses are untouched.  Since the map starts empty and nothing else
    writes it, no list it holds ever has a duplicate.  The other room ids
    that stay are those of the list stored before whose room the client
    knows as invite-only: the id of a room that the client does not know,
    or that is not invite-only, is dropped from the list. *)
Theorem set_room_id_pushes_to_front t address room t' :
  _set_room_id_for_address t address room = (t', Returned ()) →
  let stored := _address_to_room_ids t' !!! address in
  head stored = Some room
  ∧ (room ∉ tail stored)
  ∧ tail stored = filter (fun r => r ≠ room) (_get_room_ids_for_address t address)
  ∧ (tail stored) `sublist_of` (_address_to_room_ids t !!! address)
  ∧ (∀ other, other ≠ address →
              _address_to_room_ids t' !!! other = _address_to_room_ids t !!! other)
  ∧ (∀ t0, room_ids_written t0 → ∀ a, NoDup (_address_to_room_ids t0 !!! a))
  ∧ (∀ other, other ∈ tail stored
              ↔ other ≠ room
                ∧ other ∈ _address_to_room_ids t !!! address
                ∧ ∃ known, client_rooms t !! other = Some known
                           ∧ invite_only known = true).
Proof.
  intros Hset. unfold _set_room_id_for_address in Hset.
  destruct (negb _); [done|]. simplify_eq. simpl.
  rewrite lookup_total_insert_eq. simpl.
  split; [done|]. split.
  { intros [Hne _]%list_elem_of_filter. done. }
  split; [done|]. split.
  { etrans; [apply sublist_filter|apply get_room_ids_sublist]. }
  split.
  { intros other Hne. by rewrite lookup_total_insert_ne. }
  split.
  { intros t0 Hwritten.
    induction Hwritten as [t0 Hempty|t0 a0 r0 Hw IH|t0 t1 Hw IH Hsame]; intros a.
    - rewrite Hempty, lookup_total_empty. constructor.
    - unfold _set_room_id_for_address. destruct (negb _); [apply IH|]. simpl.
      destruct (decide (a0 = a)) as [->|Hne].
      + rewrite lookup_total_insert_eq. apply NoDup_cons. split.
        * intros [Hne _]%list_elem_of_filter. done.
        * apply NoDup_filter, NoDup_filter, IH.
      + rewrite lookup_total_insert_ne by done. apply IH.
    - rewrite Hsame. apply IH. }
  intros other. unfold _get_room_ids_for_address, room_is_private.
  rewrite !list_elem_of_filter. split.
  - intros (Hne & Hprivate & Hin). split; [done|]. split; [done|].
    destruct (client_rooms t !! other) as [known|]; [|done]. by exists known.
  - intros (Hne & Hin & known & Hknown & Hprivate). rewrite Hknown. done.
Qed.

(** *** Who creates the room *)

Lemma my_place_or_yours_symmetric A B :
  A ≠ B → my_place_or_yours A B = my_place_or_yours B A.
Proof.
  intros Hne. unfold my_place_or_yours. rewrite (ltb_antisym B A) by done.
  by destruct (String.ltb A B).
Qed.

Lemma my_place_or_yours_smaller A B :
  A ≠ B → (my_place_or_yours A B = A ↔ String.ltb A B = true).
Proof.
  intros Hne. unfold my_place_or_yours. rewrite (ltb_antisym B A) by done.
  destruct (String.ltb A B); simpl; naive_solver.
Qed.

Lemma poll_members_no_create service room ids retries attempt members calls polled :
  poll_members service room ids retries attempt members = (calls, polled) →
  ∀ invitees, CreateRoom invitees ∉ calls.
Proof.
  revert attempt members calls polled.
  induction retries as [|retries IH]; intros attempt members calls polled Hp invitees;
    simpl in Hp.
  - simplify_eq. apply not_elem_of_nil.
  - repeat case_match; simplify_eq;
      rewrite ?not_elem_of_cons; repeat split; try done; try apply not_elem_of_nil.
    all: by eapply IH.
Qed.

(** A node that is not the elected creator leaves its state alone and calls
    nothing. *)
Lemma not_creator_returns t service address our_address :
  _raiden_service t = Some our_address →
  our_address ≠ my_place_or_yours our_address address →
  ∃ r, _maybe_create_room_for_address t service address = (t, [], r)
       ∧ (r = Returned None ∨ r = Raised AssertionError).
Proof.
  intros Hour Hne. unfold _maybe_create_room_for_address.
  destruct (_stop_event t); [eauto|].
  unfold _get_room_for_address. destruct (negb (_ && _)); [eauto|]. simpl.
  destruct (head _); [eauto|]. rewrite Hour.
  rewrite bool_decide_eq_false_2 by done. simpl. eauto.
Qed.

(** What such a node returns: [None], unless the assertion of
    [_get_room_for_address] fails, the partner being empty or not
    whitelisted, which a stopping transport does not get to. *)
Lemma not_creator_outcome t service address our_address :
  _raiden_service t = Some our_address →
  our_address ≠ my_place_or_yours our_address address →
  (_maybe_create_room_for_address t service address).2
  = if _stop_event t then Returned None
    else if negb (bool_decide (address = "")) && is_address_known t address
         then Returned None
         else Raised AssertionError.
Proof.
  intros Hour Hne. unfold _maybe_create_room_for_address.
  destruct (_stop_event t); [done|].
  unfold _get_room_for_address.
  destruct (negb (bool_decide (address = "")) && is_address_known t address);
    [|done].
  simpl. destruct (head _); [done|]. rewrite Hour.
  by rewrite bool_decide_eq_false_2.
Qed.

Lemma not_creator_returns_none t service address our_address :
  _raiden_service t = Some our_address →
  our_address ≠ my_place_or_yours our_address address →
  let r := (_maybe_create_room_for_address t service address).2 in
  (_stop_event t = true ∨ address ≠ "" ∧ address ∈ known_addresses t →
   r = Returned None)
  ∧ (r = Raised AssertionError
     ↔ _stop_event t = false ∧ (address = "" ∨ address ∉ known_addresses t)).
Proof.
  intros Hour Hne r. unfold r.
  rewrite (not_creator_outcome t service address our_address Hour Hne).
  unfold is_address_known.
  destruct (_stop_event t).
  { split; [done|]. split; [done|]. by intros [? _]. }
  destruct (decide (address = "")) as [->|Hnonempty].
  { simpl. split; [|by split; auto]. intros [?|[? _]]; done. }
  rewrite (bool_decide_eq_false_2 (address = "")) by done. simpl.
  destruct (decide (address ∈ known_addresses t)) as [Hknown|Hunknown].
  - rewrite bool_decide_eq_true_2 by done. split; [done|].
    split; [done|]. intros [_ [?|?]]; done.
  - rewrite bool_decide_eq_false_2 by done. split; [|by split; auto].
    intros [?|[_ ?]]; done.
Qed.

Lemma creates_only_creator t service address our_address :
  _raiden_service t = Some our_address →
  creates_room (_maybe_create_room_for_address t service address).1.2 →
  our_address = my_place_or_yours our_address address.
Proof.
  intros Hour [invitees Hin].
  destruct (decide (our_address = my_place_or_yours our_address address)) as [|Hne];
    [done|].
  destruct (not_creator_returns t service address our_address Hour Hne) as (r & Hrun & _).
  rewrite Hrun in Hin. simpl in Hin. by apply elem_of_nil in Hin.
Qed.

(** The elected creator, on a running transport without a usable room for
    the partner, creates one as soon as the partner has a validated user. *)
Lemma creator_creates t service address our_address :
  _stop_event t = false →
  _get_room_for_address t address false = Returned None →
  _raiden_service t = Some our_address →
  our_address = my_place_or_yours our_address address →
  (∃ user, user ∈ search_user_directory service address
           ∧ validate_userid_signature user = Some address) →
  creates_room (_maybe_create_room_for_address t service address).1.2.
Proof.
  intros Hstop Hroom Hour Hcreator (user & Hin & Hvalid).
  unfold _maybe_create_room_for_address. rewrite Hstop, Hroom, Hour.
  rewrite bool_decide_eq_true_2 by done. simpl.
  destruct (filter _ (search_user_directory service address)) as [|u us] eqn:Hfilter.
  { assert (user ∈ filter (fun user => validate_userid_signature user = Some address)
                     (search_user_directory service address)) as Hu
      by (by apply list_elem_of_filter).
    rewrite Hfilter in Hu. by apply elem_of_nil in Hu. }
  exists (user_id <$> u :: us).
  assert (Hcreated : ∀ rest : list Call,
             CreateRoom (user_id <$> u :: us)
             ∈ ([SearchUserDirectory address;
                 WarmUsers (search_user_directory service address)]
                ++ [CreateRoom (user_id <$> u :: us)]) ++ rest).
  { intros rest. apply elem_of_app. left. apply elem_of_app. right. left. }
  destruct (poll_members _ _ _ _ _ _) as [polls polled].
  destruct polled as [[members|]| |e]; simpl; try apply Hcreated.
  destruct (existsb _ members); simpl; [apply Hcreated|].
  destruct (_set_room_id_for_address _ _ _) as [t2 [?|?]]; simpl; apply Hcreated.
Qed.

(** C3.  Of two nodes with distinct addresses exactly one is elected, the
    same on both sides: the one whose address is the smaller in the
    lexicographic order.  A call of [create_room] in
    [_maybe_create_room_for_address] happens on the elected node only, so
    never on both; on the other node the function leaves the state as it
    was, makes no call at all, and returns [None] whenever the partner has
    been whitelisted or the transport is stopping (it raises, with
    [AssertionError], exactly when the transport runs and the partner is
    empty or not whitelisted: the assertion of [_get_room_for_address],
    which comes before the election).  The elected node does call
    [create_room] when its transport runs, no room for the partner is known
    yet and the partner has a user with a valid signature. *)
Theorem only_creator_creates_room A B tA tB serviceA serviceB :
  A ≠ B →
  _raiden_service tA = Some A →
  _raiden_service tB = Some B →
  let creator := my_place_or_yours A B in
  let at_A := _maybe_create_room_for_address tA serviceA B in
  let at_B := _maybe_create_room_for_address tB serviceB A in
  my_place_or_yours B A = creator
  ∧ (creator = A ∧ String.ltb A B = true ∨ creator = B ∧ String.ltb B A = true)
  ∧ (creates_room at_A.1.2 → creator = A)
  ∧ (creates_room at_B.1.2 → creator = B)
  ∧ ¬ (creates_room at_A.1.2 ∧ creates_room at_B.1.2)
  ∧ (creator ≠ A →
     at_A.1.1 = tA ∧ at_A.1.2 = []
     ∧ (at_A.2 = Returned None ∨ at_A.2 = Raised AssertionError))
  ∧ (creator ≠ B →
     at_B.1.1 = tB ∧ at_B.1.2 = []
     ∧ (at_B.2 = Returned None ∨ at_B.2 = Raised AssertionError))
  ∧ (creator = A →
     _stop_event tA = false →
     _get_room_for_address tA B false = Returned None →
     (∃ user, user ∈ search_user_directory serviceA B
              ∧ validate_userid_signature user = Some B) →
     creates_room at_A.1.2)
  ∧ (creator ≠ A →
     (_stop_event tA = true ∨ B ≠ "" ∧ B ∈ known_addresses tA →
      at_A.2 = Returned None)
     ∧ (at_A.2 = Raised AssertionError
        ↔ _stop_event tA = false ∧ (B = "" ∨ B ∉ known_addresses tA)))
  ∧ (creator ≠ B →
     (_stop_event tB = true ∨ A ≠ "" ∧ A ∈ known_addresses tB →
      at_B.2 = Returned None)
     ∧ (at_B.2 = Raised AssertionError
        ↔ _stop_event tB = false ∧ (A = "" ∨ A ∉ known_addresses tB))).
Proof.
  intros Hne HA HB creator at_A at_B.
  assert (Hsym : my_place_or_yours B A = creator)
    by (symmetry; by apply my_place_or_yours_symmetric).
  assert (HcA : creates_room at_A.1.2 → creator = A).
  { intros Hc. symmetry. by eapply creates_only_creator. }
  assert (HcB : creates_room at_B.1.2 → creator = B).
  { intros Hc. rewrite <- Hsym. symmetry. by eapply creates_only_creator. }
  split; [done|]. split.
  { unfold creator, my_place_or_yours. rewrite (ltb_antisym B A) by done.
    destruct (String.ltb A B); simpl; [by left|by right]. }
  split; [done|]. split; [done|]. split.
  { intros [Ha Hb]. apply Hne. by rewrite <- (HcA Ha), <- (HcB Hb). }
  split.
  { intros Hnot.
    destruct (not_creator_returns tA serviceA B A HA) as (r & Hrun & Hr); [done|].
    subst at_A. rewrite Hrun. done. }
  split.
  { intros Hnot.
    destruct (not_creator_returns tB serviceB A B HB) as (r & Hrun & Hr).
    - rewrite Hsym. done.
    - subst at_B. rewrite Hrun. done. }
  split.
  { intros Hcreator Hstop Hroom Huser.
    by apply (creator_creates tA serviceA B A). }
  split.
  - intros Hnot. apply (not_creator_returns_none tA serviceA B A HA). done.
  - intros Hnot. apply (not_creator_returns_none tB serviceB A B HB).
    by rewrite Hsym.
Qed.

(** *** Retry queues of the transport *)

(** [_get_retrier] answers with the queue stored for the receiver, which is
    alive; a queue that was alive before is the one returned, and nothing
    changes then. *)
Lemma get_retrier_spec t address t1 calls retrier :
  _get_retrier t address = (t1, calls, retrier) →
  _address_to_retrier t1 !! address = Some retrier
  ∧ greenlet_ready retrier = false
  ∧ _config t1 = _config t
  ∧ (∀ other, other ≠ address →
              _address_to_retrier t1 !! other = _address_to_retrier t !! other)
  ∧ (∀ alive, _address_to_retrier t !! address = Some alive →
              greenlet_ready alive = false → retrier = alive)
  ∧ (retriers_keyed t → receiver retrier = address)
  ∧ (calls = [] ∨ calls = [StartRetrier address]).
Proof.
  unfold _get_retrier. intros Hget.
  assert (Hnew : ∀ m : gmap string _RetryQueue,
             <[address := new_RetryQueue address]> m !! address
             = Some (new_RetryQueue address)) by (intros; apply lookup_insert_eq).
  destruct (_address_to_retrier t !! address) as [q|] eqn:Hq;
    [destruct (greenlet_ready q) eqn:Hready|]; simplify_eq; simpl; split_and!;
    try done; eauto.
  all: try (intros other Hne; by rewrite lookup_insert_ne).
  all: try (intros alive ? ?; simplify_eq; congruence).
Qed.

Lemma enqueue_on_spec t address retrier qid m :
  recipient qid = receiver retrier →
  ∃ retrier',
    enqueue_on t address retrier qid m
    = (set_address_to_retrier (<[address := retrier']> (_address_to_retrier t)) t,
       [Enqueue address qid m], Returned ())
    ∧ retrier' = (enqueue (_config t) retrier qid m).1
    ∧ receiver retrier' = receiver retrier
    ∧ greenlet_ready retrier' = greenlet_ready retrier
    ∧ (∀ data, data ∈ _message_queue retrier → data ∈ _message_queue retrier')
    ∧ ∃ data, data ∈ _message_queue retrier'
              ∧ queue_identifier data = qid ∧ message data = m.
Proof.
  intros Hrec. unfold enqueue_on.
  destruct (enqueue_queued (_config t) retrier qid m Hrec) as [Hret Hqueued].
  destruct (enqueue (_config t) retrier qid m) as [retrier' r] eqn:Henq.
  simpl in *. subst r. exists retrier'. split; [done|]. split; [done|].
  split; [by rewrite <- (enqueue_receiver (_config t) retrier qid m), Henq|].
  split; [by rewrite <- (enqueue_greenlet_ready (_config t) retrier qid m), Henq|].
  split.
  - intros data Hin. apply (enqueue_keeps (_config t) _ qid m) in Hin.
    by rewrite Henq in Hin.
  - by apply already_queued_spec.
Qed.

(** C8.  [send_async] raises [ValueError] exactly when the recipient of the
    queue identifier is not a binary address (20 bytes) or the message is a
    [Delivered], [Ping] or [Pong]; in that case the transport is left as it
    was and no call is made.  Otherwise it returns, having called [enqueue]
    on the live retry queue of the recipient, which then buffers the
    message under the queue identifier. *)
Theorem send_async_raises_value_error t qid m :
  retriers_keyed t →
  ∃ t' calls r,
    send_async t qid m = (t', calls, r)
    ∧ (r = Raised ValueError
       ↔ is_binary_address (recipient qid) = false ∨ is_transport_internal m = true)
    ∧ (r = Raised ValueError → t' = t ∧ calls = [])
    ∧ (r ≠ Raised ValueError →
       r = Returned ()
       ∧ Enqueue (recipient qid) qid m ∈ calls
       ∧ ∃ retrier,
           _address_to_retrier t' !! recipient qid = Some retrier
           ∧ receiver retrier = recipient qid
           ∧ greenlet_ready retrier = false
           ∧ ∃ data, data ∈ _message_queue retrier
                     ∧ queue_identifier data = qid ∧ message data = m).
Proof.
  intros Hkeyed. unfold send_async.
  destruct (is_binary_address (recipient qid)) eqn:Hbin; simpl.
  2: { eexists _, _, _. split; [done|]. split; [naive_solver|]. split; done. }
  destruct (is_transport_internal m) eqn:Hint.
  { eexists _, _, _. split; [done|]. split; [naive_solver|]. split; done. }
  unfold _send_with_retry.
  destruct (_get_retrier t (recipient qid)) as [[t1 started] retrier] eqn:Hget.
  apply get_retrier_spec in Hget
    as (Hstored & Hready & Hcfg & Hothers & Halive & Hrec & Hstarted).
  specialize (Hrec Hkeyed).
  destruct (enqueue_on_spec t1 (recipient qid) retrier qid m) as
    (retrier' & Hon & _ & Hrec' & Hready' & _ & Hdata); [done|].
  rewrite Hon. eexists _, _, _. split; [done|].
  split; [split; [done|by intros [?|?]]|]. split; [done|].
  intros _. split; [done|]. split.
  { apply elem_of_app. right. left. }
  exists retrier'. simpl. rewrite lookup_insert_eq.
  split; [done|]. split; [congruence|]. split; [congruence|done].
Qed.

(** *** The inbound pipeline *)

Lemma omap_none {A B} (f : A → option B) (l : list A) :
  Forall (fun x => f x = None) l → omap f l = [].
Proof. induction 1 as [|x l Hx _ IH]; simpl; [done|]. by rewrite Hx. Qed.

(** Validating and parsing only looks users up. *)
Lemma handle_text_calls t room msg :
  Forall (fun c => enqueued c = None ∧ signed c = None ∧ handled c = None)
         (_handle_text t room msg).1.
Proof.
  unfold _handle_text. repeat case_match; simpl; repeat constructor.
Qed.

Lemma handle_room_messages_calls t room room_messages :
  Forall (fun c => enqueued c = None ∧ signed c = None ∧ handled c = None)
         (handle_room_messages t room room_messages).1.
Proof.
  induction room_messages as [|msg rest IH]; simpl; [constructor|].
  pose proof (handle_text_calls t room msg) as Hhere.
  destruct (_handle_text t room msg) as [calls [ms|e]]; simpl in *; [|done].
  destruct (handle_room_messages t room rest) as [calls' [ms'|e]]; simpl in *;
    by apply Forall_app.
Qed.

Lemma handle_rooms_calls t sync_messages :
  Forall (fun c => enqueued c = None ∧ signed c = None ∧ handled c = None)
         (handle_rooms t sync_messages).1.
Proof.
  induction sync_messages as [|[room room_messages] rest IH]; simpl; [constructor|].
  pose proof (handle_room_messages_calls t room room_messages) as Hhere.
  destruct (negb (_is_broadcast_room t room)).
  - destruct (handle_room_messages t room room_messages) as [calls [ms|e]];
      simpl in *; [|done].
    destruct (handle_rooms t rest) as [calls' [ms'|e]]; simpl in *;
      by apply Forall_app.
  - destruct (handle_rooms t rest) as [calls' [ms'|e]]; simpl in *; done.
Qed.

(** One acknowledgement: the queue of the peer is fetched (or created) and
    the message enqueued on it as unordered.  The message is buffered
    afterwards, and so is whatever was buffered on a live queue before. *)
Lemma acknowledge_one t peer m :
  ∃ t1 started retrier t2,
    _get_retrier t peer = (t1, started, retrier)
    ∧ enqueue_on t1 peer retrier (unordered_queue (receiver retrier)) m
      = (t2, [Enqueue peer (unordered_queue (receiver retrier)) m], Returned ())
    ∧ (started = [] ∨ started = [StartRetrier peer])
    ∧ buffered_unordered t2 peer m
    ∧ (∀ address m', buffered_unordered t address m' →
                     buffered_unordered t2 address m').
Proof.
  destruct (_get_retrier t peer) as [[t1 started] retrier] eqn:Hget.
  apply get_retrier_spec in Hget
    as (Hstored & Hready & Hcfg & Hothers & Halive & _ & Hstarted).
  destruct (enqueue_on_spec t1 peer retrier (unordered_queue (receiver retrier)) m)
    as (retrier' & Hon & _ & Hrec' & Hready' & Hkeeps & data & Hin & Hqid & Hm);
    [done|].
  eexists t1, started, retrier, _. split; [done|]. split; [exact Hon|].
  split; [done|]. split.
  - exists retrier'. simpl. rewrite lookup_insert_eq. split; [done|].
    split; [congruence|]. exists data. split; [done|]. split; [|done].
    by rewrite Hqid.
  - intros address m' (alive & Hlookup & Hlive & data' & Hin' & Hqid' & Hm').
    destruct (decide (address = peer)) as [->|Hne].
    + exists retrier'. simpl. rewrite lookup_insert_eq. split; [done|].
      split; [congruence|]. exists data'. split; [|done].
      apply Hkeeps. by rewrite (Halive alive Hlookup Hlive).
    + exists alive. simpl. rewrite lookup_insert_ne by done.
      rewrite Hothers by done. split; [done|]. split; [done|]. by exists data'.
Qed.

(** The second loop of [_handle_sync_messages]: it never raises; its
    enqueue calls are the acknowledgements of the messages that need one,
    one for each and in their order, each preceded by the signing of its
    [Delivered]; and every acknowledgement is buffered at the end. *)
Lemma acknowledge_spec all_messages t :
  ∃ t' acks,
    acknowledge t all_messages = (t', acks, Returned ())
    ∧ omap enqueued acks
      = acknowledgement <$> filter (fun m => needs_delivered m = true) all_messages
    ∧ omap signed acks
      = (fun m => Delivered (default 0 (message_identifier_of m)) EMPTY_SIGNATURE)
          <$> filter (fun m => needs_delivered m = true) all_messages
    ∧ omap handled acks = []
    ∧ (∀ address m, buffered_unordered t address m →
                    buffered_unordered t' address m)
    ∧ (∀ m, m ∈ all_messages → needs_delivered m = true →
            buffered_unordered t' (default "" (sender m)) (delivered_for m)).
Proof.
  revert t. induction all_messages as [|m rest IH]; intros t.
  { exists t, []. simpl. split_and!; try done. by intros ? ?%elem_of_nil. }
  simpl. destruct (needs_delivered m) eqn:Hneeds.
  - destruct (acknowledge_one t (default "" (sender m)) (delivered_for m))
      as (t1 & started & retrier & t2 & Hget & Hon & Hstarted & Hbuf & Hkeep).
    unfold delivered_for in Hon. rewrite Hget, Hon.
    destruct (IH t2) as (t' & acks & Hack & Henq & Hsig & Hhandled & Hkeep' & Hall).
    rewrite Hack. eexists _, _. split; [done|].
    rewrite filter_cons_True by done.
    assert (Hs : omap enqueued started = [] ∧ omap signed started = []
                 ∧ omap handled started = [])
      by (by destruct Hstarted as [-> | ->]).
    destruct Hs as (Hs1 & Hs2 & Hs3).
    split_and!.
    + simpl. rewrite omap_app, Hs1. simpl. f_equal. apply Henq.
    + simpl. rewrite omap_app, Hs2. simpl. f_equal. apply Hsig.
    + simpl. rewrite omap_app, Hs3. simpl. apply Hhandled.
    + intros address m' Hb. by apply Hkeep', Hkeep.
    + intros m' [->|Hin]%elem_of_cons Hn.
      * by apply Hkeep'.
      * by apply Hall.
  - destruct (IH t) as (t' & acks & Hack & Henq & Hsig & Hhandled & Hkeep' & Hall).
    rewrite Hack. eexists _, _. split; [done|].
    rewrite filter_cons_False by (by rewrite Hneeds).
    split_and!; try done.
    intros m' [->|Hin]%elem_of_cons Hn; [congruence|by apply Hall].
Qed.


End TransportFacts.

(** * Further properties *)

(** ** The expiration generator *)

Lemma expiration_run_app now reads g n m :
  expiration_run now reads g (n + m)
  = let '(l1, g1, reads1) := expiration_run now reads g n in
    let '(l2, g2, reads2) := expiration_run now reads1 g1 m in
    (l1 ++ l2, g2, reads2).
Proof.
  revert reads g. induction n as [|n IH]; intros reads g; simpl.
  - by destruct (expiration_run now reads g m) as [[l2 g2] reads2].
  - destruct (expiration_next now reads g) as [[ready g'] reads'].
    rewrite IH.
    destruct (expiration_run now reads' g' n) as [[l1 g1] reads1].
    by destruct (expiration_run now reads1 g1 m) as [[l2 g2] reads2].
Qed.

(** While the clock is before the deadline the generator yields [False] and
    stays as it is; each call reads the clock once. *)
Lemma expiration_run_waiting now reads g deadline n :
  _next g = Some deadline →
  (∀ k, (reads ≤ k < reads + n)%nat → now k < deadline) →
  expiration_run now reads g n = (replicate n false, g, (reads + n)%nat).
Proof.
  intros Hnext. revert reads. induction n as [|n IH]; intros reads Hbefore; simpl.
  - by rewrite Nat.add_0_r.
  - unfold expiration_next. rewrite Hnext.
    assert (Hlt : (now reads <? deadline) = true).
    { apply Z.ltb_lt, Hbefore. lia. }
    rewrite Hlt, IH.
    + by rewrite Nat.add_succ_r.
    + intros k Hk. apply Hbefore. lia.
Qed.

(** X1.  A new expiration generator yields [True] on its first call, whatever
    the clock shows; it then yields [False] on every call that finds the
    clock before the deadline (the clock at the first call plus the first
    timeout), and [True] again on the first call that finds the deadline
    reached, at which point the next deadline is the clock plus the second
    timeout. *)
Theorem expiration_generator_waits_for_deadline now timeouts n :
  (∀ k, (1 ≤ k ≤ n)%nat → now k < now 0%nat + timeouts 0%nat) →
  now 0%nat + timeouts 0%nat ≤ now (S n) →
  expiration_run now 0 (_expiration_generator timeouts) (S (n + 1))
  = (true :: replicate n false ++ [true],
     {| timeout_generator := timeouts; fetched := 2;
        _next := Some (now (S (S n)) + timeouts 1%nat) |},
     S (S (S n))).
Proof.
  intros Hbefore Hreached.
  change (expiration_run now 0 (_expiration_generator timeouts) (S (n + 1)))
    with (let '(rest, g'', reads'') :=
            expiration_run now 1
              {| timeout_generator := timeouts; fetched := 1;
                 _next := Some (now 0%nat + timeouts 0%nat) |} (n + 1) in
          (true :: rest, g'', reads'')).
  rewrite expiration_run_app.
  rewrite (expiration_run_waiting now 1 _ (now 0%nat + timeouts 0%nat) n);
    [|done|intros k Hk; apply Hbefore; lia].
  simpl. unfold expiration_next. simpl.
  assert (Hge : (now (S n) <? now 0%nat + timeouts 0%nat) = false).
  { apply Z.ltb_ge. done. }
  by rewrite Hge.
Qed.

(** ** The buffer of a retry queue stays well formed *)

Section RetryQueueInvariants.
Context `{Collaborators}.

Lemma buffer_well_formed_sublist q q' :
  _message_queue q' `sublist_of` _message_queue q →
  allocated q' = allocated q →
  buffer_well_formed q → buffer_well_formed q'.
Proof.
  intros Hsub Halloc (Hkeys & Hrefs & Hbound). split; [|split].
  - apply (sublist_NoDup _ (entry_key <$> _message_queue q));
      [done|by apply fmap_sublist].
  - apply (sublist_NoDup _ (expiration_generator <$> _message_queue q));
      [done|by apply fmap_sublist].
  - intros data Hin. rewrite Halloc. apply Hbound. by eapply elem_of_sublist.
Qed.

Lemma enqueue_well_formed cfg q qid m :
  buffer_well_formed q → buffer_well_formed (enqueue cfg q qid m).1.
Proof.
  intros (Hkeys & Hrefs & Hbound). unfold enqueue.
  destruct (negb _); [done|].
  destruct (already_queued q qid m) eqn:Hq; [done|].
  unfold buffer_well_formed, notify. simpl.
  split; [|split].
  - rewrite fmap_app. apply NoDup_app. split; [done|]. split; [|apply NoDup_singleton].
    intros key Hin ->%list_elem_of_singleton.
    apply list_elem_of_fmap in Hin as (data & Hkey & Hin).
    apply not_true_iff_false in Hq. apply Hq, already_queued_spec.
    exists data. unfold entry_key in Hkey. simpl in Hkey. by simplify_eq.
  - rewrite fmap_app. apply NoDup_app. split; [done|]. split; [|apply NoDup_singleton].
    intros ref Hin ->%list_elem_of_singleton.
    apply list_elem_of_fmap in Hin as (data & Href & Hin).
    apply Hbound in Hin. simpl in Href. lia.
  - intros data [Hin|Hin]%elem_of_app.
    + apply Hbound in Hin. lia.
    + apply list_elem_of_singleton in Hin as ->. simpl. lia.
Qed.

Lemma enqueue_all_well_formed cfg q arrived :
  buffer_well_formed q → buffer_well_formed (enqueue_all cfg q arrived).
Proof.
  revert q. induction arrived as [|a arrived IH]; intros q Hq; [done|].
  apply IH. by apply enqueue_well_formed.
Qed.

Lemma collect_allocated view snapshot st st' err :
  collect view snapshot st = (st', err) →
  allocated (queue st') = allocated (queue st).
Proof.
  revert st. induction snapshot as [|d snapshot IH]; intros st Hc; simpl in Hc.
  - by simplify_eq.
  - destruct (collect_step view d st) as [st1 [e|]] eqn:Hstep.
    + simplify_eq. by apply collect_step_other_fields in Hstep as (_ & _ & _ & _ & ?).
    + apply collect_step_other_fields in Hstep as (_ & _ & _ & _ & Ha).
      apply IH in Hc. congruence.
Qed.

(** [_check_and_send] only removes entries, and allocates no generator. *)
Lemma check_and_send_sublist view q :
  _message_queue (_check_and_send view q).1.1 `sublist_of` _message_queue q
  ∧ allocated (_check_and_send view q).1.1 = allocated q.
Proof.
  unfold _check_and_send.
  destruct (transport_greenlet view); [|done].
  destruct (stop_event_ready view); [done|]. simpl.
  destruct (bool_decide _); [|done]. simpl.
  destruct (collect_from_buffer view q) as (st & Hc & Hbuf). rewrite Hc.
  apply collect_allocated in Hc.
  destruct (send_batches _ _ _ _). simpl. rewrite Hbuf. split; [|done].
  apply sublist_filter.
Qed.

Lemma run_iteration_sublist view q :
  _message_queue (_run_iteration view q).1.1 `sublist_of` _message_queue q
  ∧ allocated (_run_iteration view q).1.1 = allocated q.
Proof.
  unfold _run_iteration. destruct (stop_event_ready view); [done|]. simpl.
  destruct (_message_queue q) as [|d l] eqn:Hq.
  - case_match; simpl; by rewrite Hq.
  - destruct (check_and_send_sublist view (set_idle_since 0 (set_notify_event false q)))
      as [Hsub Halloc].
    destruct (_check_and_send _ _) as [[q1 effects] err]. simpl in *.
    rewrite Hq in Hsub.
    destruct err; [done|]. by case_match.
Qed.

(** X2.  The loop of a retry queue keeps its buffer well formed, whatever is
    enqueued between its iterations and whatever the transport answers: the
    buffer never holds two entries with the same queue identifier and
    message, and no two entries share an expiration generator. *)
Theorem run_loop_keeps_buffer_well_formed cfg rounds q :
  buffer_well_formed q → buffer_well_formed (_run_loop cfg rounds q).1.1.
Proof.
  revert q. induction rounds as [|r rounds IH]; intros q Hq; [done|]. simpl.
  pose proof (enqueue_all_well_formed cfg q (arrivals r) Hq) as Hq1.
  destruct (run_iteration_sublist (transport_view r) (enqueue_all cfg q (arrivals r)))
    as [Hsub Halloc].
  destruct (_run_iteration _ _) as [[q2 effects] status]. simpl in *.
  pose proof (buffer_well_formed_sublist _ _ Hsub Halloc Hq1) as Hq2.
  destruct status; try done.
  specialize (IH q2 Hq2).
  by destruct (_run_loop cfg rounds q2) as [[q3 effects'] status'].
Qed.

End RetryQueueInvariants.

(** ** What a retry queue sends, and when *)

Section RetryQueueSending.
Context `{Collaborators}.




(** The texts are collected in the order of the buffer. *)
Lemma collect_texts_sublist view snapshot st st' err :
  collect view snapshot st = (st', err) →
  ∃ l, message_texts st' = message_texts st ++ l
       ∧ l `sublist_of` (text <$> snapshot).
Proof.
  revert st. induction snapshot as [|d snapshot IH]; intros st Hc; simpl in Hc.
  - simplify_eq. exists []. by rewrite app_nil_r.
  - assert (Hstep : ∀ st1 e, collect_step view d st = (st1, e) →
              message_texts st1 = message_texts st
              ∨ message_texts st1 = message_texts st ++ [text d]).
    { unfold collect_step, remove_entry. intros st1 e Hs.
      repeat case_match; simplify_eq; simpl; auto. }
    destruct (collect_step view d st) as [st1 [e|]] eqn:Hs.
    + simplify_eq. destruct (Hstep _ _ eq_refl) as [->| ->].
      * exists []. rewrite app_nil_r. split; [done|apply sublist_nil_l].
      * exists [text d]. split; [done|]. simpl. apply sublist_skip, sublist_nil_l.
    + destruct (IH st1 Hc) as (l & Hl & Hsub).
      destruct (Hstep _ _ eq_refl) as [Heq|Heq]; rewrite Heq in Hl.
      * exists l. split; [done|]. simpl. by apply sublist_cons.
      * exists (text d :: l). rewrite <- app_assoc in Hl. split; [done|].
        simpl. by apply sublist_skip.
Qed.

Lemma check_and_send_effects view q effect :
  effect ∈ (_check_and_send view q).1.2 →
  effect = BroadcastQueueJoin ∨ ∃ batch, effect = SendRaw (receiver q) batch.
Proof.
  unfold _check_and_send.
  destruct (transport_greenlet view); [|by intros ?%elem_of_nil].
  destruct (stop_event_ready view); [by intros ?%elem_of_nil|]. simpl.
  assert (Hjoined : ∀ e : Effect,
            e ∈ (if _prioritize_broadcast_messages view
                 then [BroadcastQueueJoin] else []) → e = BroadcastQueueJoin).
  { intros e. destruct (_prioritize_broadcast_messages view).
    - by intros ->%list_elem_of_singleton.
    - by intros ?%elem_of_nil. }
  destruct (bool_decide _); simpl; [|intros Hin; left; by apply Hjoined].
  destruct (collect_from_buffer view q) as (st & Hc & _). rewrite Hc.
  destruct (send_batches _ _ _ _) as [sent err] eqn:Hsend. simpl.
  intros [Hin|Hin]%elem_of_app; [left; by apply Hjoined|]. right.
  destruct (send_batches_effects _ _ _ _ _ _ Hsend effect Hin) as (batch & _ & ->).
  by exists batch.
Qed.

Lemma run_iteration_effects view q effect :
  effect ∈ (_run_iteration view q).1.2 →
  effect = BroadcastQueueJoin ∨ ∃ batch, effect = SendRaw (receiver q) batch.
Proof.
  unfold _run_iteration. destruct (stop_event_ready view); [by intros ?%elem_of_nil|].
  simpl. destruct (_message_queue q) as [|d l].
  - case_match; by intros ?%elem_of_nil.
  - pose proof (check_and_send_effects view
                  (set_idle_since 0 (set_notify_event false q)) effect) as Heff.
    destruct (_check_and_send _ _) as [[q1 effects] err]. simpl in Heff.
    destruct err; [done|]. by case_match.
Qed.

Lemma run_iteration_receiver view q :
  receiver (_run_iteration view q).1.1 = receiver q.
Proof.
  unfold _run_iteration. destruct (stop_event_ready view); [done|]. simpl.
  destruct (_message_queue q) as [|d l].
  - by case_match.
  - destruct (check_and_send_other_fields view
                (set_idle_since 0 (set_notify_event false q))) as [Hrec _].
    destruct (_check_and_send _ _) as [[q1 effects] err]. simpl in Hrec.
    destruct err; [done|]. by case_match.
Qed.

Lemma enqueue_all_receiver cfg q arrived :
  receiver (enqueue_all cfg q arrived) = receiver q.
Proof.
  revert q. induction arrived as [|a arrived IH]; intros q; [done|].
  change (enqueue_all cfg q (a :: arrived))
    with (enqueue_all cfg (enqueue cfg q a.1 a.2).1 arrived).
  by rewrite IH, enqueue_receiver.
Qed.

Lemma enqueue_all_keeps cfg q arrived data :
  data ∈ _message_queue q → data ∈ _message_queue (enqueue_all cfg q arrived).
Proof.
  revert q. induction arrived as [|a arrived IH]; intros q Hin; [done|].
  apply IH. by apply enqueue_keeps.
Qed.

Lemma enqueue_all_queued cfg q arrived qid m :
  (qid, m) ∈ arrived → recipient qid = receiver q →
  already_queued (enqueue_all cfg q arrived) qid m = true.
Proof.
  revert q. induction arrived as [|a arrived IH]; intros q Hin Hrec.
  { by apply elem_of_nil in Hin. }
  change (enqueue_all cfg q (a :: arrived))
    with (enqueue_all cfg (enqueue cfg q a.1 a.2).1 arrived).
  apply elem_of_cons in Hin as [<-|Hin].
  - simpl. destruct (enqueue_queued cfg q qid m Hrec) as [_ Hq].
    apply already_queued_spec in Hq as (data & Hd & Hkey).
    apply already_queued_spec. exists data. split; [|done].
    by apply (enqueue_all_keeps cfg _ arrived).
  - apply IH; [done|]. by rewrite enqueue_receiver.
Qed.


(** X4.  Everything the loop of a retry queue sends, it sends to the
    receiver of the queue: in a run of any number of iterations, with
    anything enqueued in between, every call of [_send_raw] has the receiver
    of the queue as its address. *)
Theorem run_loop_sends_only_to_receiver cfg rounds q effect :
  effect ∈ (_run_loop cfg rounds q).1.2 →
  effect = BroadcastQueueJoin ∨ ∃ batch, effect = SendRaw (receiver q) batch.
Proof.
  revert q. induction rounds as [|r rounds IH]; intros q; simpl.
  { by intros ?%elem_of_nil. }
  pose proof (run_iteration_effects (transport_view r)
                (enqueue_all cfg q (arrivals r)) effect) as Hhere.
  pose proof (run_iteration_receiver (transport_view r)
                (enqueue_all cfg q (arrivals r))) as Hrec.
  rewrite !enqueue_all_receiver in *.
  destruct (_run_iteration _ _) as [[q1 effects] status]. simpl in Hhere, Hrec.
  destruct status; try done.
  specialize (IH q1). rewrite Hrec in IH.
  destruct (_run_loop cfg rounds q1) as [[q2 effects'] status']. simpl in *.
  intros [Hin|Hin]%elem_of_app; auto.
Qed.

(** X5.  The texts that one pass of [_check_and_send] hands to
    [make_message_batches] are texts of buffered entries, in the order of
    the buffer (the order in which the messages were enqueued), each entry
    contributing at most once; when no text is collected
    [make_message_batches] is not consulted and nothing is sent. *)
Theorem texts_collected_in_buffer_order view q :
  transport_greenlet view = true →
  stop_event_ready view = false →
  get_address_reachability view (receiver q) = REACHABLE →
  ∃ texts,
    texts `sublist_of` (text <$> _message_queue q)
    ∧ (_check_and_send view q).1.2
      = (if _prioritize_broadcast_messages view then [BroadcastQueueJoin] else [])
        ++ (send_batches view (receiver q)
              (match texts with [] => [] | _ => make_message_batches texts end) 0).1.
Proof.
  intros Hstarted Hstop Hreach.
  destruct (collect_from_buffer view q) as (st & Hc & _).
  destruct (collect_texts_sublist _ _ _ _ _ Hc) as (l & Hl & Hsub).
  simpl in Hl. subst l. exists (message_texts st). split; [done|].
  unfold _check_and_send. rewrite Hstarted, Hstop, Hreach, Hc. simpl.
  by destruct (send_batches _ _ _ _).
Qed.

End RetryQueueSending.

(** ** Messages wait in the buffer while the transport holds them back *)

Section RetryQueueHolding.
Context `{Collaborators}.

(** An iteration on a non-empty buffer that is held back leaves the buffer
    as it is and goes on waiting; the idle counter is reset. *)
Lemma run_iteration_held view q :
  holds_back view (receiver q) →
  _message_queue q ≠ [] →
  ∃ effects,
    _run_iteration view q
    = (set_idle_since 0 (set_notify_event false q), effects, Waiting)
    ∧ ∀ effect, effect ∈ effects → effect = BroadcastQueueJoin.
Proof.
  intros [Hstop Hheld] Hq. unfold _run_iteration. rewrite Hstop. simpl.
  destruct (_message_queue q) as [|d l] eqn:Hbuf; [done|].
  set (q1 := set_idle_since 0 (set_notify_event false q)).
  assert (Hcs : ∃ effects, _check_and_send view q1 = (q1, effects, None)
                           ∧ ∀ effect, effect ∈ effects → effect = BroadcastQueueJoin).
  { destruct Hheld as [Hstarted|Hreach].
    - exists []. unfold _check_and_send. rewrite Hstarted. simpl.
      split; [done|]. by intros ? ?%elem_of_nil.
    - by apply check_and_send_unreachable. }
  destruct Hcs as (effects & -> & Heff). exists effects. by split.
Qed.

(** X6.  While the transport has not been started, or the receiver is not
    reachable, and the transport is not stopping, the loop of a retry queue
    that holds a message keeps waiting: it does not exit as idle, it calls
    [_send_raw] for nothing, every entry stays buffered, and every message
    enqueued for the receiver in the meantime is buffered at the end. *)
Theorem held_back_loop_keeps_messages cfg rounds q :
  Forall (fun r => holds_back (transport_view r) (receiver q)) rounds →
  _message_queue q ≠ [] →
  ∃ q' effects,
    _run_loop cfg rounds q = (q', effects, Waiting)
    ∧ (∀ address data, SendRaw address data ∉ effects)
    ∧ (∀ data, data ∈ _message_queue q → data ∈ _message_queue q')
    ∧ (∀ r qid m, r ∈ rounds → (qid, m) ∈ arrivals r →
                  recipient qid = receiver q →
                  already_queued q' qid m = true).
Proof.
  revert q. induction rounds as [|r rounds IH]; intros q Hheld Hq.
  { exists q, []. split; [done|]. split; [by intros ? ? ?%elem_of_nil|].
    split; [done|]. by intros ? ? ? ?%elem_of_nil. }
  apply Forall_cons in Hheld as [Hhere Hheld].
  set (q1 := enqueue_all cfg q (arrivals r)).
  assert (Hrec1 : receiver q1 = receiver q) by apply enqueue_all_receiver.
  assert (Hkeeps : ∀ data, data ∈ _message_queue q → data ∈ _message_queue q1).
  { intros data. apply enqueue_all_keeps. }
  assert (Hq1 : _message_queue q1 ≠ []).
  { destruct (_message_queue q) as [|d l]; [done|].
    intros Hnil. specialize (Hkeeps d). rewrite Hnil in Hkeeps.
    eapply elem_of_nil, Hkeeps. left. }
  rewrite <- Hrec1 in Hhere.
  destruct (run_iteration_held _ _ Hhere Hq1) as (effects & Hrun & Heff).
  set (q2 := set_idle_since 0 (set_notify_event false q1)) in *.
  destruct (IH q2) as (q' & effects' & Hloop & Hnone & Hstay & Harrived).
  { by rewrite <- Hrec1 in Hheld. }
  { done. }
  exists q', (effects ++ effects'). simpl. fold q1. rewrite Hrun, Hloop.
  split; [done|]. split; [|split].
  - intros address data [Hin|Hin]%elem_of_app.
    + by apply Heff in Hin.
    + by apply Hnone in Hin.
  - intros data Hin. by apply Hstay, Hkeeps.
  - intros r' qid m [->|Hin]%elem_of_cons Harr Hrec.
    + assert (Hqueued : already_queued q1 qid m = true).
      { by apply enqueue_all_queued. }
      apply already_queued_spec in Hqueued as (data & Hd & Hkey).
      apply already_queued_spec. exists data. split; [|done]. by apply Hstay.
    + apply (Harrived r'); [done|done|]. by rewrite Hrec.
Qed.

End RetryQueueHolding.

(** ** The retry queues of the transport stay filed under their receiver *)

Section TransportInvariants.
Context `{Collaborators}.

Lemma get_retrier_keyed t address :
  retriers_keyed t →
  retriers_keyed (_get_retrier t address).1.1
  ∧ receiver (_get_retrier t address).2 = address.
Proof.
  intros Hkeyed. unfold _get_retrier.
  assert (Hnew : retriers_keyed
                   (set_address_to_retrier
                      (<[address := new_RetryQueue address]> (_address_to_retrier t)) t)).
  { intros a q. simpl. destruct (decide (a = address)) as [->|Hne].
    - rewrite lookup_insert_eq. by intros [= <-].
    - rewrite lookup_insert_ne by done. apply Hkeyed. }
  destruct (_address_to_retrier t !! address) as [q|] eqn:Hq; [|done].
  destruct (greenlet_ready q); [done|]. simpl. split; [done|]. by apply Hkeyed.
Qed.

Lemma enqueue_on_keyed t address retrier qid m :
  retriers_keyed t → receiver retrier = address →
  retriers_keyed (enqueue_on t address retrier qid m).1.1.
Proof.
  intros Hkeyed Hrec. unfold enqueue_on.
  pose proof (enqueue_receiver (_config t) retrier qid m) as Hsame.
  destruct (enqueue (_config t) retrier qid m) as [retrier' r]. simpl in *.
  intros a q. simpl. destruct (decide (a = address)) as [->|Hne].
  - rewrite lookup_insert_eq. intros [= <-]. congruence.
  - rewrite lookup_insert_ne by done. apply Hkeyed.
Qed.

Lemma send_with_retry_keyed t qid m :
  retriers_keyed t → retriers_keyed (_send_with_retry t qid m).1.1.
Proof.
  intros Hkeyed. unfold _send_with_retry.
  destruct (get_retrier_keyed t (recipient qid) Hkeyed) as [Hkeyed1 Hrec].
  destruct (_get_retrier t (recipient qid)) as [[t1 started] retrier]. simpl in *.
  pose proof (enqueue_on_keyed t1 (recipient qid) retrier qid m Hkeyed1 Hrec) as Hkeyed2.
  by destruct (enqueue_on t1 (recipient qid) retrier qid m) as [[t2 calls] r].
Qed.

Lemma acknowledge_keyed all_messages t :
  retriers_keyed t → retriers_keyed (acknowledge t all_messages).1.1.
Proof.
  revert t. induction all_messages as [|m rest IH]; intros t Hkeyed; [done|]. simpl.
  destruct (needs_delivered m); [|by apply IH].
  destruct (get_retrier_keyed t (default "" (sender m)) Hkeyed) as [Hkeyed1 Hrec].
  destruct (_get_retrier t (default "" (sender m))) as [[t1 started] retrier].
  simpl in *.
  pose proof (enqueue_on_keyed t1 (default "" (sender m)) retrier
                (unordered_queue (receiver retrier))
                (sign (Delivered (default 0 (message_identifier_of m)) EMPTY_SIGNATURE))
                Hkeyed1 Hrec) as Hkeyed2.
  destruct (enqueue_on t1 _ retrier _ _) as [[t2 calls] r]. simpl in *.
  destruct r; [|done]. specialize (IH t2 Hkeyed2).
  by destruct (acknowledge t2 rest) as [[t3 calls'] r'].
Qed.

(** X7.  Every retry queue of the transport is filed under the address of
    its receiver: this holds when no queue exists yet, and [_get_retrier],
    [send_async] and [_handle_sync_messages] keep it, so that the assertion
    at the head of [enqueue] holds whenever [send_async] reaches it. *)
Theorem retriers_stay_keyed t :
  (_address_to_retrier t = ∅ → retriers_keyed t)
  ∧ (retriers_keyed t →
     (∀ address, retriers_keyed (_get_retrier t address).1.1)
     ∧ (∀ qid m, retriers_keyed (send_async t qid m).1.1
                 ∧ (send_async t qid m).2 ≠ Raised AssertionError)
     ∧ (∀ sync_messages,
          retriers_keyed (_handle_sync_messages t sync_messages).1.1)).
Proof.
  split.
  { intros Hempty address retrier. by rewrite Hempty, lookup_empty. }
  intros Hkeyed. split; [|split].
  - intros address. by apply get_retrier_keyed.
  - intros qid m. unfold send_async.
    destruct (negb _); [done|]. destruct (is_transport_internal m); [done|].
    split; [by apply send_with_retry_keyed|].
    unfold _send_with_retry.
    destruct (get_retrier_keyed t (recipient qid) Hkeyed) as [_ Hrec].
    destruct (_get_retrier t (recipient qid)) as [[t1 started] retrier]. simpl in *.
    destruct (enqueue_on_spec t1 (recipient qid) retrier qid m) as (? & -> & _); done.
  - intros sync_messages. unfold _handle_sync_messages.
    destruct (_stop_event t); [done|]. destruct (_raiden_service t); [|done].
    destruct (handle_rooms t sync_messages) as [calls [all_messages|e]]; [|done].
    pose proof (acknowledge_keyed all_messages t Hkeyed) as Hack.
    by destruct (acknowledge t all_messages) as [[t' acks] [[]|e]].
Qed.

End TransportInvariants.

(** ** Which inbound messages reach the application *)

Section TransportInbound.
Context `{Collaborators}.

Lemma not_broadcast_room_spec t room :
  _is_broadcast_room t room = false ↔ no_broadcast_alias t room.
Proof.
  rewrite <- not_true_iff_false, is_broadcast_room_spec. unfold no_broadcast_alias.
  split.
  - intros Hnone suffix room_alias Hs Ha Hc. apply Hnone.
    exists suffix, room_alias. by rewrite str_contains_spec.
  - intros Hnone (suffix & room_alias & Hs & Ha & Hc).
    apply (Hnone suffix room_alias Hs Ha). by apply str_contains_spec.
Qed.

(** In a room that [_is_broadcast_room] does not take for a broadcast room
    [_handle_text] raises nothing but the [KeyError] of an event that lacks
    a key, and what it accepts has passed every check. *)
Lemma handle_text_outcome t room event :
  _is_broadcast_room t room = false →
  ∃ calls r,
    _handle_text t room event = (calls, r)
    ∧ (r = Raised KeyError ∧ ¬ event_complete event
       ∨ ∃ ms, r = Returned ms ∧ ∀ m, m ∈ ms → accepted_from t room event m).
Proof.
  intros Hroom. unfold _handle_text.
  assert (Hnone : ∀ calls : list Call,
            ∃ calls' r,
              (calls, Returned (@nil Message)) = (calls', r)
              ∧ (r = Raised KeyError ∧ ¬ event_complete event
                 ∨ ∃ ms, r = Returned ms
                         ∧ ∀ m, m ∈ ms → accepted_from t room event m)).
  { intros calls. exists calls, (Returned []). split; [done|]. right.
    exists []. split; [done|]. by intros ? ?%elem_of_nil. }
  assert (Hkey : ∀ calls : list Call,
            ¬ event_complete event →
            ∃ calls' r,
              (calls, @Raised (list Message) KeyError) = (calls', r)
              ∧ (r = Raised KeyError ∧ ¬ event_complete event
                 ∨ ∃ ms, r = Returned ms
                         ∧ ∀ m, m ∈ ms → accepted_from t room event m)).
  { intros calls Hmissing. exists calls, (Raised KeyError). split; [done|]. by left. }
  destruct (event_type event) as [type|] eqn:Htype.
  2: { apply Hkey. intros ([? ?] & _). congruence. }
  destruct (bool_decide (type = "m.room.message")) eqn:Hmessage; [|apply Hnone].
  apply bool_decide_eq_true in Hmessage. subst type. simpl.
  destruct (msgtype event) as [content_type|] eqn:Hmsgtype.
  2: { apply Hkey. intros (_ & [? ?] & _). congruence. }
  destruct (bool_decide (content_type = "m.text")) eqn:Htext; [|apply Hnone].
  apply bool_decide_eq_true in Htext. subst content_type. simpl.
  destruct (event_sender event) as [sender_id|] eqn:Hsender.
  2: { apply Hkey. intros (_ & _ & [? ?] & _). congruence. }
  destruct (bool_decide (sender_id = _user_id t)) eqn:Hself; [apply Hnone|].
  apply bool_decide_eq_false in Hself.
  destruct (validate_userid_signature (client_get_user t sender_id))
    as [peer|] eqn:Hpeer; [|apply Hnone]. simpl.
  destruct (bool_decide (peer = "")) eqn:Hempty; [apply Hnone|]. simpl.
  apply bool_decide_eq_false in Hempty. rewrite Hroom.
  destruct (is_address_known t peer) eqn:Hknown; [|apply Hnone]. simpl.
  apply bool_decide_eq_true in Hknown.
  destruct (bool_decide (room_id room ∈ _get_room_ids_for_address t peer)) eqn:Hin;
    [|apply Hnone]. simpl.
  apply bool_decide_eq_true in Hin.
  destruct (body event) as [text|] eqn:Hbody.
  2: { apply Hkey. intros (_ & _ & _ & [? ?]). congruence. }
  eexists _, _. split; [done|]. right. eexists. split; [done|].
  intros m Hm. exists peer, sender_id, text. by split_and!.
Qed.

Lemma handle_room_messages_outcome t room events :
  _is_broadcast_room t room = false →
  ∃ calls r,
    handle_room_messages t room events = (calls, r)
    ∧ (r = Raised KeyError ∧ (∃ event, event ∈ events ∧ ¬ event_complete event)
       ∨ ∃ ms, r = Returned ms
               ∧ ∀ m, m ∈ ms →
                      ∃ event, event ∈ events ∧ accepted_from t room event m).
Proof.
  intros Hroom. induction events as [|event events IH].
  { exists [], (Returned []). split; [done|]. right. exists []. split; [done|].
    by intros ? ?%elem_of_nil. }
  simpl.
  destruct (handle_text_outcome t room event Hroom)
    as (calls & r & -> & [[-> Hmissing]|(ms & -> & Hms)]).
  { eexists _, _. split; [done|]. left. split; [done|].
    exists event. split; [left|done]. }
  destruct IH as (calls' & r' & -> & [[-> (event' & Hin & Hmissing)]|(ms' & -> & Hms')]).
  { eexists _, _. split; [done|]. left. split; [done|].
    exists event'. split; [by right|done]. }
  eexists _, _. split; [done|]. right. eexists. split; [done|].
  intros m [Hin|Hin]%elem_of_app.
  - exists event. split; [left|by apply Hms].
  - destruct (Hms' m Hin) as (event' & Hin' & Hacc). exists event'. split; [by right|done].
Qed.

(** The first loop of [_handle_sync_messages]. *)
Lemma handle_rooms_outcome t sync_messages :
  ∃ calls r,
    handle_rooms t sync_messages = (calls, r)
    ∧ (r = Raised KeyError
       ∧ (∃ room events event,
            (room, events) ∈ sync_messages ∧ event ∈ events
            ∧ ¬ event_complete event)
       ∨ ∃ all_messages,
           r = Returned all_messages
           ∧ ∀ m, m ∈ all_messages →
                  ∃ room events event,
                    (room, events) ∈ sync_messages ∧ event ∈ events
                    ∧ _is_broadcast_room t room = false
                    ∧ accepted_from t room event m).
Proof.
  induction sync_messages as [|[room events] rest IH].
  { exists [], (Returned []). split; [done|]. right. exists []. split; [done|].
    by intros ? ?%elem_of_nil. }
  destruct IH as (calls' & r' & Hrest & IH). simpl.
  assert (Hhere :
            ∃ calls r,
              (if negb (_is_broadcast_room t room)
               then handle_room_messages t room events
               else ([], Returned [])) = (calls, r)
              ∧ (r = Raised KeyError
                 ∧ (∃ event, event ∈ events ∧ ¬ event_complete event)
                 ∨ ∃ ms, r = Returned ms
                         ∧ ∀ m, m ∈ ms →
                                ∃ event, event ∈ events
                                         ∧ _is_broadcast_room t room = false
                                         ∧ accepted_from t room event m)).
  { destruct (_is_broadcast_room t room) eqn:Hroom; simpl.
    - exists [], (Returned []). split; [done|]. right. exists []. split; [done|].
      by intros ? ?%elem_of_nil.
    - destruct (handle_room_messages_outcome t room events Hroom)
        as (calls & r & Hrun & [Hkey|(ms & -> & Hms)]).
      + exists calls, r. split; [done|]. by left.
      + exists calls, (Returned ms). split; [done|]. right. exists ms.
        split; [done|]. intros m Hin. destruct (Hms m Hin) as (event & Hev & Hacc).
        by exists event. }
  destruct Hhere as (calls & r & -> & [[-> (event & Hev & Hmissing)]|(ms & -> & Hms)]).
  { eexists _, _. split; [done|]. left. split; [done|].
    exists room, events, event. split; [left|done]. }
  rewrite Hrest.
  destruct IH as [[-> (room' & events' & event & Hin & Hev & Hmissing)]
                 |(ms' & -> & Hms')].
  { eexists _, _. split; [done|]. left. split; [done|].
    exists room', events', event. split; [by right|done]. }
  eexists _, _. split; [done|]. right. eexists. split; [done|].
  intros m [Hin|Hin]%elem_of_app.
  - destruct (Hms m Hin) as (event & Hev & Hroom & Hacc).
    exists room, events, event. split; [left|done].
  - destruct (Hms' m Hin) as (room' & events' & event & Hin' & Hrestof).
    exists room', events', event. split; [by right|done].
Qed.

(** X8.  Every message that [_handle_sync_messages] hands to the
    application handler comes from a text event that holds all its keys,
    received in a room none of whose aliases contains a broadcast suffix
    (the canonical alias of the room is not examined), sent by a user other
    than this node whose display name validates to a whitelisted address,
    the room being one of the rooms listed for that address: nothing from a
    peer that was not whitelisted, and nothing received in a room not
    associated with its sender, reaches the application. *)
Theorem inbound_messages_whitelisted t sync_messages t' calls r handed m :
  _handle_sync_messages t sync_messages = (t', calls, r) →
  OnMessages handed ∈ calls →
  m ∈ handed →
  ∃ room events event,
    (room, events) ∈ sync_messages ∧ event ∈ events
    ∧ no_broadcast_alias t room
    ∧ accepted_from t room event m.
Proof.
  unfold _handle_sync_messages. intros Hrun Hcall Hm.
  destruct (_stop_event t).
  { simplify_eq. by apply elem_of_nil in Hcall. }
  destruct (_raiden_service t).
  2: { simplify_eq. by apply elem_of_nil in Hcall. }
  pose proof (handle_rooms_calls t sync_messages) as Hvalidated.
  rewrite Forall_forall in Hvalidated.
  destruct (handle_rooms_outcome t sync_messages)
    as (validated & r0 & Hrooms & [[-> _]|(all_messages & -> & Haccepted)]);
    rewrite Hrooms in Hrun, Hvalidated; simpl in Hvalidated.
  { simplify_eq. by destruct (Hvalidated _ Hcall) as (_ & _ & ?). }
  destruct (acknowledge_spec all_messages t)
    as (t1 & acks & Hack & _ & _ & Hhandled & _).
  rewrite Hack in Hrun. simplify_eq.
  apply elem_of_app in Hcall as [Hcall|Hcall].
  { by destruct (Hvalidated _ Hcall) as (_ & _ & ?). }
  apply elem_of_app in Hcall as [Hcall|Hcall].
  { assert (Hin : handed ∈ omap handled acks).
    { apply list_elem_of_omap. by exists (OnMessages handed). }
    rewrite Hhandled in Hin. by apply elem_of_nil in Hin. }
  apply list_elem_of_singleton in Hcall. simplify_eq.
  destruct (Haccepted m Hm) as (room & events & event & Hin & Hev & Hroom & Hacc).
  exists room, events, event. split; [done|]. split; [done|]. split; [|done].
  by apply not_broadcast_room_spec.
Qed.

(** X9.  Once the Raiden service is set, and as far as the code of the
    transport goes, the only exception that [_handle_sync_messages] raises
    is the [KeyError] of an event that lacks a key: the [RuntimeError] of
    [_handle_text] for a broadcast room and the assertion of [enqueue] are
    out of reach.  When it raises, some event of the sync lacks a key, the
    transport is left as it was and the application handler has not been
    called; when every event holds its keys it returns.  On a stopping
    transport it returns [False] and does nothing; on a running one, when it
    returns, its last call is the application handler, called once (also
    with an empty list), and the result tells whether any message was
    accepted. *)
Theorem handle_sync_messages_raises_only_key_error t sync_messages :
  is_Some (_raiden_service t) →
  ∃ t' calls r,
    _handle_sync_messages t sync_messages = (t', calls, r)
    ∧ (r = Raised KeyError ∨ ∃ accepted, r = Returned accepted)
    ∧ (r = Raised KeyError →
       t' = t ∧ omap handled calls = []
       ∧ ∃ room events event,
           (room, events) ∈ sync_messages ∧ event ∈ events
           ∧ ¬ event_complete event)
    ∧ ((∀ room events event,
          (room, events) ∈ sync_messages → event ∈ events → event_complete event) →
       ∃ accepted, r = Returned accepted)
    ∧ (_stop_event t = true → t' = t ∧ calls = [] ∧ r = Returned false)
    ∧ (_stop_event t = false →
       ∀ accepted, r = Returned accepted →
       ∃ all_messages,
         (handle_rooms t sync_messages).2 = Returned all_messages
         ∧ omap handled calls = [all_messages]
         ∧ last calls = Some (OnMessages all_messages)
         ∧ accepted = negb (bool_decide (all_messages = []))).
Proof.
  intros [our Hour]. unfold _handle_sync_messages.
  destruct (_stop_event t) eqn:Hstop.
  { eexists _, _, _. split; [done|]. split; [by right; eexists|].
    split; [done|]. split; [by eexists|]. split; done. }
  rewrite Hour.
  pose proof (handle_rooms_calls t sync_messages) as Hcalls.
  assert (Hnone : ∀ calls, Forall (fun c => enqueued c = None ∧ signed c = None
                                            ∧ handled c = None) calls →
                           omap handled calls = []).
  { intros calls Hall. apply omap_none. eapply Forall_impl; [exact Hall|].
    by intros c (_ & _ & ?). }
  destruct (handle_rooms_outcome t sync_messages)
    as (validated & r0 & Hrooms
        & [[-> (room & events & event & Hin & Hev & Hmissing)]
          |(all_messages & -> & _)]);
    rewrite Hrooms in *; simpl in Hcalls.
  { eexists _, _, _. split; [done|]. split; [by left|]. split.
    - intros _. split; [done|]. split; [by apply Hnone|].
      by exists room, events, event.
    - split; [|split; done]. intros Hcomplete. exfalso.
      by apply Hmissing, (Hcomplete room events). }
  destruct (acknowledge_spec all_messages t)
    as (t' & acks & -> & _ & _ & Hhandled & _).
  eexists _, _, _. split; [done|]. split; [by right; eexists|].
  split; [done|]. split; [by eexists|]. split; [done|].
  intros _ accepted [= <-]. exists all_messages. split; [done|].
  split; [|split; [|done]].
  - rewrite !omap_app, Hhandled, (Hnone _ Hcalls). done.
  - by rewrite app_assoc, last_snoc.
Qed.

End TransportInbound.

(** ** Choosing the room to send in *)

Section TransportRooms.
Context `{Collaborators}.

Lemma filter_all {A} (P : A → Prop) `{∀ x, Decision (P x)} (l : list A) :
  Forall P l → filter P l = l.
Proof.
  induction 1 as [|x l Hx _ IH]; [done|]. by rewrite filter_cons_True, IH.
Qed.

(** A room among the candidates is a known private room, listed for the
    address, that is not a broadcast room. *)
Lemma room_candidates_spec t address room :
  room ∈ room_candidates t address
  ↔ _is_broadcast_room t room = false
    ∧ ∃ id, id ∈ _address_to_room_ids t !!! address
            ∧ client_rooms t !! id = Some room ∧ invite_only room = true.
Proof.
  unfold room_candidates, _get_room_ids_for_address.
  rewrite list_elem_of_filter, list_elem_of_omap. split.
  - intros (Hb & id & Hin & Hroom). split; [done|]. exists id.
    apply list_elem_of_filter in Hin as [Hprivate Hin].
    unfold room_is_private in Hprivate. rewrite Hroom in Hprivate. done.
  - intros (Hb & id & Hin & Hroom & Hprivate). split; [done|]. exists id.
    split; [|done]. apply list_elem_of_filter. split; [|done].
    unfold room_is_private. by rewrite Hroom.
Qed.

Lemma has_online_peers_spec t address room :
  has_online_peers t address room = true
  ↔ ∃ user, user ∈ joined_members room
            ∧ user_id user ∈ userids_for_address t !!! address
            ∧ presence_reachable (get_userid_presence t (user_id user)) = true.
Proof.
  unfold has_online_peers. rewrite existsb_elem_of.
  split; intros (user & Hin & Hu); exists user; (split; [done|]).
  - apply andb_true_iff in Hu as [Hid Hp]. by apply bool_decide_eq_true in Hid.
  - destruct Hu as [Hid Hp]. by rewrite bool_decide_eq_true_2.
Qed.

Lemma head_filter_elem {A} (P : A → Prop) `{∀ x, Decision (P x)} (l : list A) x :
  head (filter P l) = Some x → P x ∧ x ∈ l.
Proof.
  intros Hhead. apply head_Some_elem_of in Hhead.
  by apply list_elem_of_filter in Hhead.
Qed.

Lemma head_filter_none {A} (P : A → Prop) `{∀ x, Decision (P x)} (l : list A) :
  head (filter P l) = None → ∀ x, x ∈ l → ¬ P x.
Proof.
  intros Hhead x Hin HP.
  assert (Hx : x ∈ filter P l) by (by apply list_elem_of_filter).
  destruct (filter P l); [by apply elem_of_nil in Hx|done].
Qed.

(** X10.  [_send_raw] raises [AssertionError], and sends nothing, when the
    receiver is empty or has not been whitelisted.  Otherwise it sends the
    data, unchanged and once, in a room that the client knows as
    invite-only under an id listed for the receiver, none of whose aliases
    contains a broadcast suffix (the canonical alias of the room is not
    examined, so that it may be the alias of a broadcast room), and in
    which a user of the receiver with a reachable presence has joined; it
    sends nothing, and returns without an error, exactly when none of the
    candidate rooms of the receiver has such a user. *)
Theorem send_raw_room_choice t send_text_raises receiver_address data calls r :
  _send_raw t send_text_raises receiver_address data = (calls, r) →
  (receiver_address = "" ∨ receiver_address ∉ known_addresses t →
   calls = [] ∧ r = Raised AssertionError)
  ∧ (receiver_address ≠ "" → receiver_address ∈ known_addresses t →
     (calls = [] ∧ r = Returned ()
      ∧ ∀ room, room ∈ room_candidates t receiver_address →
                has_online_peers t receiver_address room = false)
     ∨ (∃ room id user,
          calls = [SendText (room_id room) data]
          ∧ r = match send_text_raises with
                | Some e => Raised e
                | None => Returned ()
                end
          ∧ id ∈ _address_to_room_ids t !!! receiver_address
          ∧ client_rooms t !! id = Some room
          ∧ invite_only room = true
          ∧ no_broadcast_alias t room
          ∧ user ∈ joined_members room
          ∧ user_id user ∈ userids_for_address t !!! receiver_address
          ∧ presence_reachable (get_userid_presence t (user_id user)) = true)).
Proof.
  unfold _send_raw, _get_room_for_address, is_address_known. intros Hsend. split.
  - intros Hbad.
    assert (Hguard : negb (bool_decide (receiver_address = ""))
                     && bool_decide (receiver_address ∈ known_addresses t) = false).
    { destruct Hbad as [->|Hunknown]; [done|].
      rewrite (bool_decide_eq_false_2 (_ ∈ _)) by done. apply andb_false_r. }
    rewrite Hguard in Hsend. simpl in Hsend. by simplify_eq.
  - intros Hne Hknown.
    rewrite bool_decide_eq_false_2, bool_decide_eq_true_2 in Hsend by done.
    simpl in Hsend.
    destruct (head (filter _ (room_candidates t receiver_address)))
      as [room|] eqn:Hhead; simplify_eq.
    + right. apply head_filter_elem in Hhead as [Honline Hcandidate].
      apply room_candidates_spec in Hcandidate as (Hb & id & Hin & Hroom & Hprivate).
      apply has_online_peers_spec in Honline as (user & Hu & Hid & Hp).
      apply not_broadcast_room_spec in Hb.
      exists room, id, user. by split_and!.
    + left. split; [done|]. split; [done|]. intros room Hin.
      apply not_true_iff_false.
      exact (head_filter_none _ _ Hhead room Hin).
Qed.

(** X11.  Recording a known room for an address and then asking for the
    room of that address: [_set_room_id_for_address] passes its assertion;
    a room that is not invite-only is stored but is not among the room ids
    that [_get_room_ids_for_address] returns afterwards; an invite-only room
    is the first of them, followed by the other ids returned before, and,
    unless it is a broadcast room, it is the room that
    [_get_room_for_address] returns for a whitelisted address (when an
    online peer is required: provided one of the users of the address with
    a reachable presence has joined it). *)
Theorem set_room_id_then_get_room t address room r :
  client_rooms t !! room = Some r →
  ∃ t', _set_room_id_for_address t address room = (t', Returned ())
    ∧ head (_address_to_room_ids t' !!! address) = Some room
    ∧ (invite_only r = false → room ∉ _get_room_ids_for_address t' address)
    ∧ (invite_only r = true →
       _get_room_ids_for_address t' address
       = room :: filter (fun other => other ≠ room) (_get_room_ids_for_address t address)
       ∧ (address ≠ "" → address ∈ known_addresses t →
          _is_broadcast_room t r = false →
          _get_room_for_address t' address false = Returned (Some r)
          ∧ (has_online_peers t address r = true →
             _get_room_for_address t' address true = Returned (Some r)))).
Proof.
  intros Hroom. unfold _set_room_id_for_address.
  rewrite (bool_decide_eq_true_2 (is_Some _)) by (by eexists).
  rewrite orb_true_r. simpl. eexists. split; [done|].
  set (t' := set_address_to_room_ids _ t).
  assert (Hstored : _address_to_room_ids t' !!! address
                    = room :: filter (fun other => other ≠ room)
                                     (_get_room_ids_for_address t address)).
  { unfold t'. simpl. by rewrite lookup_total_insert_eq. }
  split; [by rewrite Hstored|]. split.
  - intros Hpublic [Hprivate _]%list_elem_of_filter.
    unfold room_is_private in Hprivate. simpl in Hprivate. rewrite Hroom in Hprivate.
    congruence.
  - intros Hprivate.
    assert (Hids : _get_room_ids_for_address t' address
                   = room :: filter (fun other => other ≠ room)
                                    (_get_room_ids_for_address t address)).
    { unfold _get_room_ids_for_address at 1. rewrite Hstored.
      apply filter_all. apply Forall_cons. split.
      - unfold room_is_private. simpl. by rewrite Hroom.
      - apply Forall_forall. intros id [_ Hin]%list_elem_of_filter.
        by apply list_elem_of_filter in Hin as [Hp _]. }
    split; [done|]. intros Hne Hknown Hbroadcast.
    unfold _get_room_for_address, is_address_known.
    rewrite bool_decide_eq_false_2, bool_decide_eq_true_2 by done. simpl.
    assert (Hcandidates : ∃ rest, room_candidates t' address = r :: rest).
    { unfold room_candidates. rewrite Hids. simpl. rewrite Hroom. simpl.
      rewrite filter_cons_True by done. by eexists. }
    destruct Hcandidates as (rest & Hcandidates). rewrite Hcandidates.
    split; [done|]. intros Honline.
    by rewrite filter_cons_True.
Qed.

End TransportRooms.

(** ** Creating the room of a partner *)

Section TransportRoomCreation.
Context `{Collaborators}.

(** The loop that waits for the partner creates no room and fetches the
    members at most once per retry. *)
Lemma poll_members_fetches service room ids retries attempt members calls polled :
  poll_members service room ids retries attempt members = (calls, polled) →
  omap created calls = []
  ∧ (length (omap members_fetched calls) ≤ retries)%nat.
Proof.
  revert attempt members calls polled.
  induction retries as [|retries IH]; intros attempt members calls polled Hp;
    simpl in Hp.
  - simplify_eq. split; [done|]. simpl. lia.
  - repeat case_match; simplify_eq; try (split; [done|simpl; lia]).
    all: match goal with
         | Hrest : poll_members _ _ _ _ _ _ = _ |- _ =>
             apply IH in Hrest as [Hnone Hlen]
         end; split; [done|].
    all: simpl; apply le_n_S; exact Hlen.
Qed.

(** When every answer lists the same members, none of them a user of the
    partner, and the transport is not stopped, the loop ends after the last
    retry with these members. *)
Lemma poll_members_never_joined service room ids retries attempt members0 ms :
  (∀ k, get_joined_members service k = Returned ms) →
  (∀ k, stop_event_wait service k = false) →
  existsb (fun member => bool_decide (user_id member ∈ ids)) ms = false →
  ∃ calls,
    poll_members service room ids (S retries) attempt members0
    = (calls, PollDone (Some ms))
    ∧ omap members_fetched calls = replicate (S retries) room
    ∧ omap created calls = [].
Proof.
  intros Hanswer Hwait Habsent. revert attempt members0.
  induction retries as [|retries IH]; intros attempt members0.
  - simpl. rewrite Hanswer, Habsent, Hwait. by eexists.
  - destruct (IH (S attempt) (Some ms)) as (calls & Hrest & Hfetched & Hcreated).
    remember (S retries) as n eqn:Hn. simpl.
    rewrite Hanswer, Habsent, Hwait, Hrest.
    eexists. split; [done|]. split.
    + change (room :: omap members_fetched calls = room :: replicate n room).
      by rewrite Hfetched.
    + exact Hcreated.
Qed.

(** X12.  When [_maybe_create_room_for_address] returns a room, this node
    is the elected creator and has called [create_room] exactly once, with
    the validated users of the partner as invitees (at least one), and has
    fetched the members at most [JOIN_RETRIES] times; the room is known to
    the client, it is the first room id stored for the address, each of its
    members is a validated user of the partner or this node itself, and the
    validated users of the partner are recorded as user ids of the
    address. *)
Theorem created_room_is_recorded t service address t' calls room :
  _maybe_create_room_for_address t service address = (t', calls, Returned (Some room)) →
  let partner_user_ids :=
    user_id <$> filter (fun user => validate_userid_signature user = Some address)
                       (search_user_directory service address) in
  (∃ our_address, _raiden_service t = Some our_address
                  ∧ our_address = my_place_or_yours our_address address)
  ∧ omap created calls = [partner_user_ids]
  ∧ partner_user_ids ≠ []
  ∧ (length (omap members_fetched calls) ≤ JOIN_RETRIES)%nat
  ∧ client_rooms t' !! room_id room = Some room
  ∧ head (_address_to_room_ids t' !!! address) = Some (room_id room)
  ∧ (∀ member, member ∈ joined_members room →
               user_id member ∈ partner_user_ids ∨ user_id member = _user_id t)
  ∧ (∀ user, user ∈ partner_user_ids → user ∈ userids_for_address t' !!! address).
Proof.
  unfold _maybe_create_room_for_address. intros Hrun.
  destruct (_stop_event t); [done|].
  destruct (_get_room_for_address t address false) as [[r0|]|e]; try done.
  destruct (_raiden_service t) as [our_address|]; [|done].
  destruct (bool_decide (our_address = my_place_or_yours our_address address))
    eqn:Hcreator; [|done].
  apply bool_decide_eq_true in Hcreator. simpl in Hrun.
  destruct (filter _ (search_user_directory service address)) as [|u us] eqn:Hpartners;
    [done|].
  set (ids := user_id <$> u :: us) in *.
  destruct (poll_members service _ ids JOIN_RETRIES 0 None) as [polls polled] eqn:Hpoll.
  apply poll_members_fetches in Hpoll as [Hcreated Hfetched].
  destruct polled as [[members|]| |e]; try done.
  destruct (existsb _ members) eqn:Hunexpected.
  { by destruct (leave_raises service). }
  unfold _set_room_id_for_address in Hrun.
  destruct (negb _); [done|]. simpl in Hrun. simplify_eq.
  split; [by exists our_address|].
  split. { change (ids :: omap created polls = [ids]). by rewrite Hcreated. }
  split; [done|].
  split. { exact Hfetched. }
  split. { simpl. by rewrite lookup_insert_eq. }
  split. { simpl. by rewrite lookup_total_insert_eq. }
  split.
  - simpl. intros member Hin.
    destruct (decide (user_id member ∈ ids ++ [_user_id t])) as [Hvalid|Hinvalid].
    + apply elem_of_app in Hvalid as [Hpartner|Hself]; [by left|].
      right. by apply list_elem_of_singleton in Hself.
    + apply not_true_iff_false in Hunexpected. exfalso. apply Hunexpected.
      apply existsb_elem_of. exists member. split; [done|].
      by rewrite bool_decide_eq_false_2.
  - intros user Hin.
    change (user ∈ <[address := userids_for_address t !!! address ∪ list_to_set ids]>
                     (userids_for_address t) !!! address).
    rewrite lookup_total_insert_eq.
    apply elem_of_union. right. apply elem_of_list_to_set. exact Hin.
Qed.

(** X13.  When the first fetch of the members of the room just created
    fails with a request error of code 500 or more, the error is swallowed,
    and the test of the members that follows raises [UnboundLocalError],
    [members] never having been assigned: the room has been created, its
    members have been asked for once, and it is not recorded for the
    address. *)
Theorem first_fetch_server_error_is_unbound t service address our_address code :
  _stop_event t = false →
  _get_room_for_address t address false = Returned None →
  _raiden_service t = Some our_address →
  our_address = my_place_or_yours our_address address →
  (∃ user, user ∈ search_user_directory service address
           ∧ validate_userid_signature user = Some address) →
  (0 < JOIN_RETRIES)%nat →
  get_joined_members service 0 = Raised (MatrixRequestError code) →
  500 ≤ code →
  ∃ t' calls,
    _maybe_create_room_for_address t service address
    = (t', calls, Raised UnboundLocalError)
    ∧ length (omap created calls) = 1%nat
    ∧ length (omap members_fetched calls) = 1%nat
    ∧ _address_to_room_ids t' = _address_to_room_ids t.
Proof.
  intros Hstop Hroom Hour Hcreator (user & Hin & Hvalid) Hretries Hfetch Hcode.
  unfold _maybe_create_room_for_address. rewrite Hstop, Hroom, Hour.
  rewrite bool_decide_eq_true_2 by done. simpl.
  destruct (filter _ (search_user_directory service address)) as [|u us] eqn:Hfilter.
  { assert (user ∈ filter (fun user => validate_userid_signature user = Some address)
                     (search_user_directory service address)) as Hu
      by (by apply list_elem_of_filter).
    rewrite Hfilter in Hu. by apply elem_of_nil in Hu. }
  destruct JOIN_RETRIES as [|retries]; [lia|]. simpl. rewrite Hfetch.
  assert (Hserver : (code <? 500) = false) by (by apply Z.ltb_ge).
  rewrite Hserver. by eexists _, _.
Qed.

(** X14.  A partner that does not join within [JOIN_RETRIES] fetches does
    not make the creation fail: when every fetch answers the same members,
    none of them a user of the partner and all of them this node, and the
    transport is not stopped meanwhile, the members are fetched
    [JOIN_RETRIES] times and the room is then recorded for the address and
    returned all the same. *)
Theorem room_recorded_although_partner_never_joined t service address our_address ms :
  _stop_event t = false →
  _get_room_for_address t address false = Returned None →
  _raiden_service t = Some our_address →
  our_address = my_place_or_yours our_address address →
  (∃ user, user ∈ search_user_directory service address
           ∧ validate_userid_signature user = Some address) →
  (0 < JOIN_RETRIES)%nat →
  (∀ k, get_joined_members service k = Returned ms) →
  (∀ k, stop_event_wait service k = false) →
  (∀ member, member ∈ ms → user_id member = _user_id t) →
  (∀ user, user ∈ search_user_directory service address →
           validate_userid_signature user = Some address →
           user_id user ≠ _user_id t) →
  ∃ t' calls room,
    _maybe_create_room_for_address t service address
    = (t', calls, Returned (Some room))
    ∧ joined_members room = ms
    ∧ length (omap members_fetched calls) = JOIN_RETRIES
    ∧ head (_address_to_room_ids t' !!! address) = Some (room_id room).
Proof.
  intros Hstop Hroom Hour Hcreator (user & Hin & Hvalid) Hretries Hanswer Hwait
         Hself Hother.
  unfold _maybe_create_room_for_address. rewrite Hstop, Hroom, Hour.
  rewrite bool_decide_eq_true_2 by done. simpl.
  destruct (filter _ (search_user_directory service address)) as [|u us] eqn:Hfilter.
  { assert (user ∈ filter (fun user => validate_userid_signature user = Some address)
                     (search_user_directory service address)) as Hu
      by (by apply list_elem_of_filter).
    rewrite Hfilter in Hu. by apply elem_of_nil in Hu. }
  set (ids := user_id <$> u :: us).
  assert (Habsent : existsb (fun member => bool_decide (user_id member ∈ ids)) ms = false).
  { apply not_true_iff_false. intros (member & Hm & Hid)%existsb_elem_of.
    apply bool_decide_eq_true in Hid.
    apply list_elem_of_fmap in Hid as (partner & Heq & Hpartner).
    rewrite <- Hfilter in Hpartner.
    apply list_elem_of_filter in Hpartner as [Hsigned Hfound].
    apply (Hother partner Hfound Hsigned). rewrite <- Heq. by apply Hself. }
  destruct JOIN_RETRIES as [|retries]; [lia|].
  destruct (poll_members_never_joined service
              (room_id (create_room service ids)) ids retries 0 None ms
              Hanswer Hwait Habsent) as (polls & -> & Hfetched & Hcreated).
  assert (Hexpected :
            existsb (fun member =>
                       negb (bool_decide (user_id member ∈ ids ++ [_user_id t]))) ms
            = false).
  { apply not_true_iff_false. intros (member & Hm & Hid)%existsb_elem_of.
    apply negb_true_iff, bool_decide_eq_false in Hid. apply Hid.
    apply elem_of_app. right. apply list_elem_of_singleton. by apply Hself. }
  rewrite Hexpected.
  unfold _set_room_id_for_address.
  rewrite (bool_decide_eq_true_2 (is_Some _))
    by (simpl; rewrite lookup_insert_eq; by eexists).
  rewrite orb_true_r.
  eexists _, _, _. split; [done|]. split; [done|]. split.
  - change (length (omap members_fetched polls) = S retries).
    rewrite Hfetched. by rewrite length_replicate.
  - simpl. by rewrite lookup_total_insert_eq.
Qed.

End TransportRoomCreation.

(** * The properties on the fixtures *)

#[local] Existing Instance fixture_collaborators.

Example fixture_transfer_buffer :
  _message_queue fixture_transfer_queue = [fixture_transfer_entry 0].
Proof. reflexivity. Qed.

Example fixture_mixed_buffer :
  _message_queue fixture_mixed_queue
  = [fixture_delivered_entry; fixture_transfer_entry 1].
Proof. reflexivity. Qed.

(** The transfer is buffered, and enqueuing it again changes nothing and
    returns. *)
Lemma enqueue_duplicate_ignored_witness :
  (∃ data, data ∈ _message_queue fixture_transfer_queue
           ∧ queue_identifier data = fixture_queue_identifier
           ∧ message data = fixture_transfer)
  ∧ (enqueue fixture_config fixture_transfer_queue
             fixture_queue_identifier fixture_transfer).1
    = fixture_transfer_queue
  ∧ enqueue fixture_config fixture_transfer_queue
            fixture_queue_identifier fixture_transfer
    = (fixture_transfer_queue, Returned ()).
Proof.
  assert (Hbuffered : ∃ data, data ∈ _message_queue fixture_transfer_queue
                              ∧ queue_identifier data = fixture_queue_identifier
                              ∧ message data = fixture_transfer).
  { exists (fixture_transfer_entry 0). split; [left|split; reflexivity]. }
  split; [exact Hbuffered|].
  destruct (enqueue_duplicate_ignored fixture_config fixture_transfer_queue
              fixture_queue_identifier fixture_transfer)
    as (Hsame & _ & Hreturns & _).
  split; [exact (Hsame Hbuffered)|].
  exact (Hreturns Hbuffered eq_refl).
Defined.

(** With the peer unreachable a tick sends nothing and keeps the transfer. *)
Lemma unreachable_peer_no_send_witness :
  get_address_reachability (fixture_view ∅ UNREACHABLE None)
                           (receiver fixture_transfer_queue) ≠ REACHABLE
  ∧ ∃ effects,
      _check_and_send (fixture_view ∅ UNREACHABLE None) fixture_transfer_queue
      = (fixture_transfer_queue, effects, None)
      ∧ ∀ address data, SendRaw address data ∉ effects.
Proof.
  assert (Hunreachable :
            get_address_reachability (fixture_view ∅ UNREACHABLE None)
                                     (receiver fixture_transfer_queue) ≠ REACHABLE)
    by discriminate.
  split; [exact Hunreachable|].
  exact (proj1 (unreachable_peer_no_send (fixture_view ∅ UNREACHABLE None)
                  fixture_transfer_queue Hunreachable)).
Defined.

(** C4 as stated fails: the peer is reachable, the queue holds a
    [Delivered], and the one call of [_send_raw] raises.  The text of the
    entry was collected and handed to [_send_raw], and the entry is gone. *)
Lemma failed_send_loses_delivered :
  let run := _check_and_send (fixture_view ∅ REACHABLE (Some (MatrixRequestError 500)))
                             fixture_delivered_queue in
  _message_queue fixture_delivered_queue = [fixture_delivered_entry]
  ∧ run.1.2 = [SendRaw fixture_peer (text fixture_delivered_entry)]
  ∧ run.2 = Some (MatrixRequestError 500)
  ∧ fixture_delivered_entry ∉ _message_queue run.1.1.
Proof.
  split; [reflexivity|]. split; [reflexivity|]. split; [reflexivity|].
  apply not_elem_of_nil.
Qed.

(** The same failing send on the queue that also holds the transfer, still
    pending in the Raiden queue: the transfer stays, the [Delivered] does
    not. *)
Lemma failed_send_removes_nothing_witness :
  let view := fixture_view {[ fixture_queue_identifier := [11] ]} REACHABLE
                           (Some (MatrixRequestError 500)) in
  let run := _check_and_send view fixture_mixed_queue in
  run = (run.1.1, run.1.2, Some (MatrixRequestError 500))
  ∧ fixture_transfer_entry 1 ∈ _message_queue run.1.1
  ∧ fixture_delivered_entry ∉ _message_queue run.1.1.
Proof.
  intros view run.
  assert (Hraised : run = (run.1.1, run.1.2, Some (MatrixRequestError 500)))
    by reflexivity.
  split; [exact Hraised|].
  destruct (failed_send_removes_nothing view fixture_mixed_queue _ _ _ Hraised)
    as (st & _ & _ & _ & Hkept & Hgone).
  split.
  - apply Hkept; [right; left|reflexivity|reflexivity].
  - apply Hgone; [left|reflexivity].
Defined.

(** C5 as stated fails: the transfer is retryable and its generator, never
    resumed, would yield [True]; but the Raiden queues no longer list it,
    so the tick removes it and sends nothing. *)
Lemma unlisted_retryable_removed_uncollected :
  let view := fixture_view ∅ REACHABLE None in
  let run := _check_and_send view fixture_transfer_queue in
  _message_queue fixture_transfer_queue = [fixture_transfer_entry 0]
  ∧ is_retrieable (message (fixture_transfer_entry 0)) = true
  ∧ (expiration_next (now view) 0
       (generators fixture_transfer_queue
          !!! expiration_generator (fixture_transfer_entry 0))).1.1 = true
  ∧ run.1.2 = []
  ∧ _message_queue run.1.1 = [].
Proof. repeat split; reflexivity. Qed.

(** The loop on the queue holding the [Delivered] and the listed transfer:
    both texts are collected, the [Delivered] is removed and the transfer
    stays. *)
Lemma collection_loop_entries_witness :
  let view := fixture_view {[ fixture_queue_identifier := [11] ]} REACHABLE None in
  ∃ st, collect view (_message_queue fixture_mixed_queue)
                (collecting fixture_mixed_queue) = (st, None)
        ∧ (text fixture_delivered_entry ∈ message_texts st
           ∧ fixture_delivered_entry ∉ _message_queue (queue st))
        ∧ (text (fixture_transfer_entry 1) ∈ message_texts st
           ∧ fixture_transfer_entry 1 ∈ _message_queue (queue st))
        ∧ (_check_and_send view fixture_mixed_queue).1.1 = queue st.
Proof.
  intros view.
  destruct (collection_loop_entries view fixture_mixed_queue)
    as (st & Hcollect & Hinternal & Hready & _ & Hsend & _).
  exists st. split; [exact Hcollect|]. split; [|split].
  - apply Hinternal; [left|reflexivity].
  - eapply (Hready [fixture_delivered_entry] (fixture_transfer_entry 1) []);
      reflexivity.
  - apply Hsend; reflexivity.
Defined.

(** C7 as stated fails: with the stop event set the loop ends at once, and
    the queue is not idle. *)
Lemma stopped_loop_exits_not_idle :
  let run := _run_iteration fixture_stopped_view (new_RetryQueue fixture_peer) in
  run.2 = ExitStopped ∧ is_idle run.1.1 = false
  ∧ _idle_since run.1.1 = 0%nat.
Proof. repeat split; reflexivity. Qed.

(** A pass over an empty queue that has already counted nine: it counts
    ten and exits as idle. *)
Lemma run_loop_exits_witness :
  let q := set_idle_since 9 (new_RetryQueue fixture_peer) in
  let run := _run_iteration (fixture_view ∅ REACHABLE None) q in
  run = (run.1.1, run.1.2, ExitIdle)
  ∧ is_idle run.1.1 = true
  ∧ _idle_since run.1.1 = 10%nat.
Proof.
  intros q run.
  assert (Hrun : run = (run.1.1, run.1.2, ExitIdle)) by reflexivity.
  split; [exact Hrun|].
  destruct (run_loop_exits _ _ _ _ _ Hrun) as (_ & _ & _ & Hrunning & _).
  destruct (Hrunning eq_refl) as (Hidle & _ & _ & Hcount).
  split.
  - by apply Hidle.
  - by apply Hcount.
Defined.

(** The node with the smaller address creates the room for the other; the
    other does not, and returns [None]. *)
Lemma only_creator_creates_room_witness :
  let tA := fixture_transport fixture_node ∅ in
  let tB := fixture_transport fixture_peer ∅ in
  fixture_node ≠ fixture_peer
  ∧ creates_room (_maybe_create_room_for_address
                    tA (fixture_room_service fixture_peer) fixture_peer).1.2
  ∧ ¬ creates_room (_maybe_create_room_for_address
                      tB (fixture_room_service fixture_node) fixture_node).1.2
  ∧ (_maybe_create_room_for_address
       tB (fixture_room_service fixture_node) fixture_node).2 = Returned None.
Proof.
  intros tA tB.
  assert (Hne : fixture_node ≠ fixture_peer) by discriminate.
  split; [exact Hne|].
  destruct (only_creator_creates_room fixture_node fixture_peer tA tB
              (fixture_room_service fixture_peer) (fixture_room_service fixture_node)
              Hne eq_refl eq_refl)
    as (_ & _ & _ & HB & _ & _ & _ & HA & _ & Hreturns).
  split; [|split].
  - apply HA; try reflexivity.
    exists (fixture_peer_user fixture_peer). split; [left|reflexivity].
  - intros Hcreates. apply HB in Hcreates. discriminate.
  - apply Hreturns; [discriminate|]. right. split; [discriminate|].
    apply elem_of_union. left. by apply elem_of_singleton.
Defined.

(** A transfer for the peer is enqueued; the transport starts a queue for
    it. *)
Lemma send_async_raises_value_error_witness :
  let t := fixture_transport fixture_node ∅ in
  retriers_keyed t
  ∧ (send_async t fixture_queue_identifier fixture_transfer).2 = Returned ()
  ∧ (send_async t fixture_queue_identifier (Delivered 3 "signed")).2
    = Raised ValueError.
Proof.
  intros t.
  assert (Hkeyed : retriers_keyed t).
  { intros address retrier Hlookup. subst t. simpl in Hlookup.
    by rewrite lookup_empty in Hlookup. }
  split; [exact Hkeyed|]. split.
  - destruct (send_async_raises_value_error t fixture_queue_identifier
                fixture_transfer Hkeyed) as (t' & calls & r & Hrun & Hiff & _ & Hok).
    rewrite Hrun. simpl. apply Hok. intros Hr. apply Hiff in Hr as [Hr|Hr]; discriminate.
  - destruct (send_async_raises_value_error t fixture_queue_identifier
                (Delivered 3 "signed") Hkeyed) as (t' & calls & r & Hrun & Hiff & _).
    rewrite Hrun. simpl. apply Hiff. by right.
Defined.

(** C10 as stated fails: the list of the peer holds the id of a room that
    is not invite-only and the id of a room that the client does not know;
    recording the private room drops both, so the other room ids are not all
    preserved. *)
Lemma set_room_id_drops_other_room_ids :
  let t := fixture_transport fixture_node
                             {[ fixture_peer := ["!broadcast"; "!older"; "!gone"] ]} in
  let run := _set_room_id_for_address t fixture_peer "!private" in
  run.2 = Returned ()
  ∧ _address_to_room_ids t !!! fixture_peer = ["!broadcast"; "!older"; "!gone"]
  ∧ _address_to_room_ids run.1 !!! fixture_peer = ["!private"; "!older"].
Proof. split; [|split]; vm_compute; reflexivity. Qed.

(** The peer's private room moves to the front of its list; of the other
    ids the one of the older private room stays, behind it. *)
Lemma set_room_id_pushes_to_front_witness :
  let t := fixture_transport fixture_node
             {[ fixture_peer := ["!broadcast"; "!older"; "!private"; "!gone"] ]} in
  let run := _set_room_id_for_address t fixture_peer "!private" in
  run = (run.1, Returned ())
  ∧ _address_to_room_ids run.1 !!! fixture_peer = ["!private"; "!older"].
Proof.
  intros t run.
  assert (Hrun : run = (run.1, Returned ())) by (vm_compute; reflexivity).
  split; [exact Hrun|].
  destruct (set_room_id_pushes_to_front t fixture_peer "!private" run.1 Hrun)
    as (Hhead & _ & Htail & _).
  destruct (_address_to_room_ids run.1 !!! fixture_peer) as [|first rest];
    [discriminate|].
  simpl in Hhead, Htail. injection Hhead as ->. rewrite Htail. reflexivity.
Defined.


(** ** The further properties on the fixtures *)

(** On a clock that advances by one at every reading and with timeouts of
    three, the generator yields [True], twice [False], and [True] again. *)
Lemma expiration_generator_waits_for_deadline_witness :
  expiration_run fixture_clock 0 (_expiration_generator (fun _ => 3)) 4
  = ([true; false; false; true],
     {| timeout_generator := fun _ => 3; fetched := 2; _next := Some 7 |},
     5%nat).
Proof.
  apply (expiration_generator_waits_for_deadline fixture_clock (fun _ => 3) 2).
  - intros k Hk. unfold fixture_clock. lia.
  - unfold fixture_clock. lia.
Defined.

(** The transfer arrives twice in one round: the buffer holds it once. *)
Lemma run_loop_keeps_buffer_well_formed_witness :
  buffer_well_formed (new_RetryQueue fixture_peer)
  ∧ buffer_well_formed
      (_run_loop fixture_config [fixture_busy_round] (new_RetryQueue fixture_peer)).1.1.
Proof.
  assert (Hnew : buffer_well_formed (new_RetryQueue fixture_peer)).
  { split; [constructor|]. split; [constructor|]. intros data Hin.
    simpl in Hin. by apply elem_of_nil in Hin. }
  split; [exact Hnew|].
  exact (run_loop_keeps_buffer_well_formed fixture_config [fixture_busy_round]
           (new_RetryQueue fixture_peer) Hnew).
Defined.


(** The one send of the busy round goes to the peer of the queue. *)
Lemma run_loop_sends_only_to_receiver_witness :
  SendRaw fixture_peer "LockedTransfer"
  ∈ (_run_loop fixture_config [fixture_busy_round] (new_RetryQueue fixture_peer)).1.2
  ∧ (SendRaw fixture_peer "LockedTransfer" = BroadcastQueueJoin
     ∨ ∃ batch, SendRaw fixture_peer "LockedTransfer"
                = SendRaw (receiver (new_RetryQueue fixture_peer)) batch).
Proof.
  assert (Hsent : SendRaw fixture_peer "LockedTransfer"
                  ∈ (_run_loop fixture_config [fixture_busy_round]
                               (new_RetryQueue fixture_peer)).1.2) by left.
  split; [exact Hsent|].
  exact (run_loop_sends_only_to_receiver fixture_config [fixture_busy_round]
           (new_RetryQueue fixture_peer) _ Hsent).
Defined.

(** The texts of the [Delivered] and of the transfer, in that order. *)
Lemma texts_collected_in_buffer_order_witness :
  let view := fixture_view {[ fixture_queue_identifier := [11] ]} REACHABLE None in
  ∃ texts,
    texts `sublist_of` ["Delivered"; "LockedTransfer"]
    ∧ (_check_and_send view fixture_mixed_queue).1.2
      = (send_batches view fixture_peer
           (match texts with [] => [] | _ => make_message_batches texts end) 0).1.
Proof.
  intros view.
  exact (texts_collected_in_buffer_order view fixture_mixed_queue
           eq_refl eq_refl eq_refl).
Defined.

(** The transfer waits through two rounds in which the peer is unreachable,
    and the [Delivered] that arrives meanwhile is buffered too. *)
Lemma held_back_loop_keeps_messages_witness :
  ∃ q' effects,
    _run_loop fixture_config [fixture_held_round; fixture_held_round]
              fixture_transfer_queue
    = (q', effects, Waiting)
    ∧ (∀ address data, SendRaw address data ∉ effects)
    ∧ fixture_transfer_entry 0 ∈ _message_queue q'
    ∧ already_queued q' (unordered_queue fixture_peer) (Delivered 3 "signed") = true.
Proof.
  assert (Hheld : Forall (fun r => holds_back (transport_view r)
                                     (receiver fixture_transfer_queue))
                         [fixture_held_round; fixture_held_round]).
  { assert (Hone : holds_back (transport_view fixture_held_round)
                              (receiver fixture_transfer_queue)).
    { split; [reflexivity|]. right. discriminate. }
    apply Forall_cons. split; [exact Hone|].
    apply Forall_cons. split; [exact Hone|]. apply Forall_nil_2. }
  assert (Hbuffer : _message_queue fixture_transfer_queue ≠ []) by discriminate.
  destruct (held_back_loop_keeps_messages fixture_config
              [fixture_held_round; fixture_held_round] fixture_transfer_queue
              Hheld Hbuffer)
    as (q' & effects & Hrun & Hnone & Hstay & Harrived).
  exists q', effects. split; [exact Hrun|]. split; [exact Hnone|]. split.
  - apply Hstay. left.
  - apply (Harrived fixture_held_round); [left|left|reflexivity].
Defined.

(** A transport without queues, and after sending a transfer. *)
Lemma retriers_stay_keyed_witness :
  let t := fixture_transport fixture_node ∅ in
  retriers_keyed t
  ∧ retriers_keyed (send_async t fixture_queue_identifier fixture_transfer).1.1
  ∧ retriers_keyed (_handle_sync_messages t fixture_sync_messages).1.1.
Proof.
  intros t.
  destruct (retriers_stay_keyed t) as [Hempty Hkept].
  assert (Hkeyed : retriers_keyed t) by (apply Hempty; reflexivity).
  destruct (Hkept Hkeyed) as (_ & Hsend & Hsync).
  split; [exact Hkeyed|]. split.
  - exact (proj1 (Hsend fixture_queue_identifier fixture_transfer)).
  - exact (Hsync fixture_sync_messages).
Defined.

(** The text event of the peer in its private room reaches the handler. *)
Lemma inbound_messages_whitelisted_witness :
  let t := fixture_transport fixture_node {[ fixture_peer := ["!private"] ]} in
  let run := _handle_sync_messages t fixture_sync_messages in
  let m := SignedRetrieable 7 11 "LockedTransfer" fixture_peer in
  OnMessages [m] ∈ run.1.2
  ∧ ∃ room events event,
      (room, events) ∈ fixture_sync_messages ∧ event ∈ events
      ∧ no_broadcast_alias t room
      ∧ accepted_from t room event m.
Proof.
  intros t run m.
  assert (Hrun : run = (run.1.1, run.1.2, run.2)) by (vm_compute; reflexivity).
  assert (Hcall : OnMessages [m] ∈ run.1.2).
  { apply list_elem_of_In. vm_compute. do 5 right. left. reflexivity. }
  assert (Hm : m ∈ [m]) by left.
  split; [exact Hcall|].
  exact (inbound_messages_whitelisted t fixture_sync_messages _ _ _ [m] m
           Hrun Hcall Hm).
Defined.

(** The same sync returns [True]; a sync with an event that has no
    content raises [KeyError]. *)
Lemma handle_sync_messages_raises_only_key_error_witness :
  let t := fixture_transport fixture_node {[ fixture_peer := ["!private"] ]} in
  is_Some (_raiden_service t)
  ∧ (_handle_sync_messages t fixture_sync_messages).2 = Returned true
  ∧ (_handle_sync_messages t fixture_redacted_sync).2 = Raised KeyError.
Proof.
  intros t.
  assert (Hservice : is_Some (_raiden_service t)) by (by eexists).
  split; [exact Hservice|]. split.
  - destruct (handle_sync_messages_raises_only_key_error t fixture_sync_messages
                Hservice)
      as (t' & calls & r & Hrun & _ & _ & Hcomplete & _).
    rewrite Hrun. simpl.
    destruct Hcomplete as [accepted ->].
    { intros room events event Hin Hev.
      apply list_elem_of_singleton in Hin. injection Hin as -> ->.
      apply list_elem_of_singleton in Hev. subst event.
      unfold event_complete. simpl. by split_and!; eexists. }
    assert (Hresult : (_handle_sync_messages t fixture_sync_messages).2
                      = Returned true) by (vm_compute; reflexivity).
    rewrite Hrun in Hresult. exact Hresult.
  - vm_compute. reflexivity.
Defined.

(** The peer is online in its private room: the data is sent there; for an
    address that was not whitelisted the assertion fails. *)
Lemma send_raw_room_choice_witness :
  _send_raw fixture_online_transport None fixture_peer "data"
  = ([SendText "!private" "data"], Returned ())
  ∧ _send_raw fixture_online_transport None "cccccccccccccccccccc" "data"
    = ([], Raised AssertionError).
Proof.
  assert (Hsent : _send_raw fixture_online_transport None fixture_peer "data"
                  = ([SendText "!private" "data"], Returned ())) by reflexivity.
  split; [exact Hsent|].
  destruct (_send_raw fixture_online_transport None "cccccccccccccccccccc" "data")
    as [calls r] eqn:Hrun.
  destruct (send_raw_room_choice fixture_online_transport None
              "cccccccccccccccccccc" "data" calls r Hrun) as [Hunknown _].
  destruct Hunknown as [-> ->]; [|reflexivity].
  right. vm_compute. intros Hin. discriminate Hin.
Defined.

(** Recording the private room for the peer makes it the room of the
    peer. *)
Lemma set_room_id_then_get_room_witness :
  let t := fixture_transport fixture_node ∅ in
  ∃ t', _set_room_id_for_address t fixture_peer "!private" = (t', Returned ())
        ∧ _get_room_ids_for_address t' fixture_peer = ["!private"]
        ∧ _get_room_for_address t' fixture_peer false
          = Returned (Some (fixture_private_room "!private")).
Proof.
  intros t.
  destruct (set_room_id_then_get_room t fixture_peer "!private"
              (fixture_private_room "!private") eq_refl)
    as (t' & Hset & _ & _ & Hprivate).
  destruct (Hprivate eq_refl) as [Hids Hroom].
  exists t'. split; [exact Hset|]. split; [exact Hids|].
  apply Hroom; [discriminate| |reflexivity].
  apply elem_of_union. right. by apply elem_of_singleton.
Defined.

(** The elected node creates the room, the peer joins at once, and the room
    is recorded for the peer. *)
Lemma created_room_is_recorded_witness :
  let run := _maybe_create_room_for_address (fixture_transport fixture_node ∅)
               (fixture_room_service fixture_peer) fixture_peer in
  run = (run.1.1, run.1.2, Returned (Some fixture_joined_room))
  ∧ omap created run.1.2 = [["@peer:server"]]
  ∧ head (_address_to_room_ids run.1.1 !!! fixture_peer) = Some "!private".
Proof.
  intros run.
  assert (Hrun : run = (run.1.1, run.1.2, Returned (Some fixture_joined_room)))
    by (vm_compute; reflexivity).
  split; [exact Hrun|].
  destruct (created_room_is_recorded (fixture_transport fixture_node ∅)
              (fixture_room_service fixture_peer) fixture_peer _ _ _ Hrun)
    as (_ & Hcreated & _ & _ & _ & Hhead & _).
  split.
  - rewrite Hcreated. vm_compute. reflexivity.
  - rewrite Hhead. vm_compute. reflexivity.
Defined.

(** The server answers 503 to the first fetch of the members. *)
Lemma first_fetch_server_error_is_unbound_witness :
  ∃ t' calls,
    _maybe_create_room_for_address (fixture_transport fixture_node ∅)
      fixture_failing_room_service fixture_peer
    = (t', calls, Raised UnboundLocalError)
    ∧ length (omap created calls) = 1%nat.
Proof.
  assert (Hpartner : ∃ user,
             user ∈ search_user_directory fixture_failing_room_service fixture_peer
             ∧ validate_userid_signature user = Some fixture_peer).
  { exists (fixture_peer_user fixture_peer). split; [left|reflexivity]. }
  assert (Hretries : (0 < JOIN_RETRIES)%nat) by (simpl; lia).
  assert (Hcode : 500 ≤ 503) by lia.
  assert (Hroom : _get_room_for_address (fixture_transport fixture_node ∅)
                                        fixture_peer false = Returned None)
    by reflexivity.
  assert (Hcreator : fixture_node = my_place_or_yours fixture_node fixture_peer)
    by reflexivity.
  destruct (first_fetch_server_error_is_unbound (fixture_transport fixture_node ∅)
              fixture_failing_room_service fixture_peer fixture_node 503
              eq_refl Hroom eq_refl Hcreator Hpartner Hretries eq_refl Hcode)
    as (t' & calls & Hrun & Hcreated & _).
  exists t', calls. split; [exact Hrun|exact Hcreated].
Defined.

(** Only this node is ever found in the new room: after ten fetches the
    room is recorded for the peer all the same. *)
Lemma room_recorded_although_partner_never_joined_witness :
  ∃ t' calls room,
    _maybe_create_room_for_address (fixture_transport fixture_node ∅)
      fixture_lonely_room_service fixture_peer
    = (t', calls, Returned (Some room))
    ∧ joined_members room = [fixture_self_user]
    ∧ length (omap members_fetched calls) = 10%nat
    ∧ head (_address_to_room_ids t' !!! fixture_peer) = Some (room_id room).
Proof.
  assert (Hpartner : ∃ user,
             user ∈ search_user_directory fixture_lonely_room_service fixture_peer
             ∧ validate_userid_signature user = Some fixture_peer).
  { exists (fixture_peer_user fixture_peer). split; [left|reflexivity]. }
  assert (Hretries : (0 < JOIN_RETRIES)%nat) by (simpl; lia).
  assert (Hself : ∀ member, member ∈ [fixture_self_user] →
                            user_id member
                            = _user_id (fixture_transport fixture_node ∅)).
  { intros member Hin. apply list_elem_of_singleton in Hin. by subst member. }
  assert (Hother : ∀ user,
             user ∈ search_user_directory fixture_lonely_room_service fixture_peer →
             validate_userid_signature user = Some fixture_peer →
             user_id user ≠ _user_id (fixture_transport fixture_node ∅)).
  { intros user Hin _. apply list_elem_of_singleton in Hin. by subst user. }
  assert (Hroom : _get_room_for_address (fixture_transport fixture_node ∅)
                                        fixture_peer false = Returned None)
    by reflexivity.
  assert (Hcreator : fixture_node = my_place_or_yours fixture_node fixture_peer)
    by reflexivity.
  exact (room_recorded_although_partner_never_joined
           (fixture_transport fixture_node ∅) fixture_lonely_room_service
           fixture_peer fixture_node [fixture_self_user]
           eq_refl Hroom eq_refl Hcreator Hpartner Hretries
           (fun _ => eq_refl) (fun _ => eq_refl) Hself Hother).
Defined.

